(** * Zero-copy buffer use cases of the session 4 notebook

    The notebook [Day1_session4_topic1_usecases.ipynb] holds three pieces of
    code over Python byte buffers: [reverse_inplace] (case 1), the header
    parse with [struct.unpack_from] (case 2) and [build_packet] (case 5).

    They are embedded here over an explicit store of buffer objects.  A
    [bytes] or [bytearray] object lives at a location of the store; a
    [memoryview] is a handle on such a location.  Every operation is a
    computation in a state-and-exception monad, so that what a call leaves
    in the store, also when it raises, can be stated. *)

From Stdlib Require Import ZArith Lia Strings.String.
From Stdlib Require Strings.Byte.
From stdpp Require Import base list.

Abbreviation byte := Byte.byte.

(** ** Store *)

(** Locations are positions in the store. *)
Abbreviation loc := nat.

(** The buffer of a [bytes] object (read-only) or of a [bytearray] (writable). *)
Record buffer := Buffer { buf_readonly : bool; buf_bytes : list byte }.

Definition bytes_obj (bs : list byte) : buffer := Buffer true bs.
Definition bytearray_obj (bs : list byte) : buffer := Buffer false bs.

(** The store: object number [l] is at index [l]; a new object goes to the end. *)
Abbreviation heap := (list buffer).

(** A [memoryview]: the object it exports, and whether [release()] was called. *)
Record memview := MemView { mv_obj : loc; mv_released : bool }.

(** What the three functions may be handed: a [bytes]/[bytearray] object, a
    [memoryview] of one, or an object of some other class that has a
    [__len__] returning [n] and exports no buffer.  Integers and buffers are
    unbounded here: the limits of the machine ([sys.maxsize], the memory
    there is) are left out. *)
Inductive value :=
| Obj (l : loc)
| View (mv : memview)
| Sized (n : Z).

(** The built-in exceptions the operations raise, and [struct.error]. *)
Inductive exn := TypeError | ValueError | IndexError | struct_error.

(** ** Computations *)

(** A run ends normally with a store and a result, or raises with the
    store as it is at that point.  [Fault]: a reference to no object of the
    store, which no Python program holds.  [OutOfFuel]: a loop was given too
    little fuel. *)
Inductive outcome (A : Type) : Type :=
| Done (h : heap) (a : A)
| Raised (h : heap) (e : exn)
| Fault
| OutOfFuel.
Arguments Done {A} h a.
Arguments Raised {A} h e.
Arguments Fault {A}.
Arguments OutOfFuel {A}.

Definition M (A : Type) : Type := heap -> outcome A.

Definition ret {A} (a : A) : M A := fun h => Done h a.
Definition raise {A} (e : exn) : M A := fun h => Raised h e.
Definition out_of_fuel {A} : M A := fun _ => OutOfFuel.

Definition bind {A B} (m : M A) (k : A -> M B) : M B :=
  fun h =>
    match m h with
    | Done h' a => k a h'
    | Raised h' e => Raised h' e
    | Fault => Fault
    | OutOfFuel => OutOfFuel
    end.

Notation "'let*' x ':=' m 'in' k" := (bind m (fun x => k))
  (at level 10, x name, m at level 100, k at level 200).

Definition deref (l : loc) : M buffer :=
  fun h => match h !! l with Some b => Done h b | None => Fault end.

Definition store (l : loc) (b : buffer) : M unit :=
  fun h => if decide (l < length h) then Done (<[l := b]> h) tt else Fault.

Definition alloc (b : buffer) : M loc :=
  fun h => Done (h ++ [b]) (length h).

(** ** The buffer protocol and the memoryview operations *)

Local Open Scope Z_scope.

(** [PyObject_GetBuffer]: the object whose memory [v] exports. *)
Definition getbuffer (v : value) : M loc :=
  match v with
  | Obj l => ret l
  | View mv => if mv_released mv then raise ValueError else ret (mv_obj mv)
  | Sized _ => raise TypeError
  end.

(** [memoryview(v)] *)
Definition memoryview (v : value) : M memview :=
  let* l := getbuffer v in
  let* _ := deref l in
  ret (MemView l false).

(** [mv.release()] *)
Definition release (mv : memview) : memview := MemView (mv_obj mv) true.

Definition len_mv (mv : memview) : M Z :=
  if mv_released mv then raise ValueError
  else let* b := deref (mv_obj mv) in ret (Z.of_nat (length (buf_bytes b))).

(** [len(v)]: a negative [__len__] makes [len] raise [ValueError]. *)
Definition len (v : value) : M Z :=
  match v with
  | Obj l => let* b := deref l in ret (Z.of_nat (length (buf_bytes b)))
  | View mv => len_mv mv
  | Sized n => if n <? 0 then raise ValueError else ret n
  end.

(** An index counted from the end when negative. *)
Definition wrap_index (n i : Z) : Z := if i <? 0 then i + n else i.

(** [mv[i]] *)
Definition getitem (mv : memview) (i : Z) : M byte :=
  if mv_released mv then raise ValueError
  else
    let* b := deref (mv_obj mv) in
    let j := wrap_index (Z.of_nat (length (buf_bytes b))) i in
    if j <? 0 then raise IndexError
    else match buf_bytes b !! Z.to_nat j with
         | Some x => ret x
         | None => raise IndexError
         end.

(** [mv[i] = x] *)
Definition setitem (mv : memview) (i : Z) (x : byte) : M unit :=
  if mv_released mv then raise ValueError
  else
    let* b := deref (mv_obj mv) in
    if buf_readonly b then raise TypeError
    else
      let n := Z.of_nat (length (buf_bytes b)) in
      let j := wrap_index n i in
      if (j <? 0) || (n <=? j) then raise IndexError
      else store (mv_obj mv) (Buffer false (<[Z.to_nat j := x]> (buf_bytes b))).

(** A bound of a slice, as [slice.indices] clips it (step 1). *)
Definition clip_index (n i : Z) : Z :=
  if i <? 0 then Z.max (i + n) 0 else Z.min i n.

(** [mv[start:stop] = src]: the source must export a buffer of exactly the
    length of the slice. *)
Definition setslice (mv : memview) (start stop : Z) (src : value) : M unit :=
  if mv_released mv then raise ValueError
  else
    let* b := deref (mv_obj mv) in
    if buf_readonly b then raise TypeError
    else
      let* ls := getbuffer src in
      let* s := deref ls in
      let n := Z.of_nat (length (buf_bytes b)) in
      let lo := clip_index n start in
      let hi := Z.max lo (clip_index n stop) in
      if negb (Z.of_nat (length (buf_bytes s)) =? hi - lo) then raise ValueError
      else store (mv_obj mv)
             (Buffer false (take (Z.to_nat lo) (buf_bytes b) ++ buf_bytes s
                            ++ drop (Z.to_nat hi) (buf_bytes b))).

(** [v] exports the buffer [b], which is object [l] of the store [h]. *)
Definition exports (h : heap) (v : value) (l : loc) (b : buffer) : Prop :=
  getbuffer v h = Done h l /\ h !! l = Some b.

(** ** Case 1: reverse in place *)

(** [mv[left], mv[right] = mv[right], mv[left]]: the right-hand tuple is
    read first, then the two targets are assigned from left to right. *)
Definition swap (mv : memview) (left right : Z) : M unit :=
  let* a := getitem mv right in
  let* b := getitem mv left in
  let* _ := setitem mv left a in
  setitem mv right b.

(** The [while left < right] loop.  The test comes first, so leaving the
    loop costs no fuel; each turn of the body costs one. *)
Fixpoint reverse_loop (fuel : nat) (mv : memview) (left right : Z) : M unit :=
  if left <? right then
    match fuel with
    | O => out_of_fuel
    | S fuel' =>
        let* _ := swap mv left right in
        reverse_loop fuel' mv (left + 1) (right - 1)
    end
  else ret tt.

Definition reverse_inplace (fuel : nat) (data : value) : M unit :=
  let* mv := memoryview data in
  let* n := len_mv mv in
  let* _ := reverse_loop fuel mv 0 (n - 1) in
  let mv := release mv in
  ret tt.

(** ** Case 2: binary header parse *)

(** The format characters [B], [H], [I] and [Q] of the [struct] module:
    unsigned integers of 1, 2, 4 and 8 bytes in the standard sizes that the
    byte-order prefix [>] selects.  A format is a list of them; [">IHH"] is
    [[uI; uH; uH]]. *)
Inductive code := uB | uH | uI | uQ.

Definition code_size (c : code) : nat :=
  match c with uB => 1 | uH => 2 | uI => 4 | uQ => 8 end%nat.

(** [struct.calcsize] *)
Definition calcsize (fmt : list code) : nat := sum_list (code_size <$> fmt).

Definition byte_value (b : byte) : Z := Z.of_N (Byte.to_N b).

(** One big-endian unsigned integer, as the module reads it:
    [x = (x << 8) | byte], from the first byte on. *)
Definition bu_uint (bs : list byte) : Z :=
  fold_left (fun x b => Z.lor (Z.shiftl x 8) (byte_value b)) bs 0.

Fixpoint unpack_fields (fmt : list code) (bs : list byte) : list Z :=
  match fmt with
  | [] => []
  | c :: fmt' =>
      bu_uint (take (code_size c) bs) :: unpack_fields fmt' (drop (code_size c) bs)
  end.

(** [struct.unpack_from(fmt, buffer, offset)].  A negative offset counts
    from the end of the buffer. *)
Definition unpack_from (fmt : list code) (buffer : value) (offset : Z) : M (list Z) :=
  let* l := getbuffer buffer in
  let* b := deref l in
  let n := Z.of_nat (length (buf_bytes b)) in
  let size := Z.of_nat (calcsize fmt) in
  if (offset <? 0) && ((0 <? offset + size) || (offset + n <? 0))
  then raise struct_error
  else
    let offset := if offset <? 0 then offset + n else offset in
    if n - offset <? size then raise struct_error
    else ret (unpack_fields fmt (drop (Z.to_nat offset) (buf_bytes b))).

(** [bytearray(bs)]: a new writable object holding a copy of [bs]. *)
Definition bytearray_of (bs : list byte) : M value :=
  let* l := alloc (bytearray_obj bs) in ret (Obj l).

(** The cell of case 2, from the bytes that [os.urandom(16)] gave.  A
    tuple of another length than three cannot be bound to the three names. *)
Definition parse_header (random : list byte) : M (Z * Z * Z) :=
  let* header := bytearray_of random in
  let* mv_head := memoryview header in
  let* t := unpack_from [uI; uH; uH] (View mv_head) 0 in
  match t with
  | [magic; major; minor] =>
      let mv_head := release mv_head in
      ret (magic, major, minor)
  | _ => raise ValueError
  end.

(** The unsigned integer that a string of bytes denotes in big-endian
    order, written as the positional sum: the first byte weighs most.  This
    is the reading the specification asks for, to compare [bu_uint] with. *)
Fixpoint big_endian (bs : list byte) : Z :=
  match bs with
  | [] => 0
  | b :: bs' => byte_value b * 256 ^ Z.of_nat (length bs') + big_endian bs'
  end.

(** The bytes of field number [i] of the layout [fmt] laid at [offset]. *)
Definition field_bytes (fmt : list code) (offset : nat) (i : nat) (c : code)
    (bs : list byte) : list byte :=
  take (code_size c) (drop (offset + calcsize (take i fmt)) bs).

(** ** Case 5: packet assembly *)

(** [sum(len(p) for p in parts)], from the start value 0 *)
Fixpoint sum_len (parts : list value) (acc : Z) : M Z :=
  match parts with
  | [] => ret acc
  | p :: ps => let* n := len p in sum_len ps (acc + n)
  end.

(** [bytearray(n)]: [n] zero bytes. *)
Definition bytearray (n : Z) : M value :=
  if n <? 0 then raise ValueError
  else bytearray_of (replicate (Z.to_nat n) Byte.x00).

(** The [for part in parts] loop, from the write position [offset]. *)
Fixpoint copy_parts (mv : memview) (parts : list value) (offset : Z) : M unit :=
  match parts with
  | [] => ret tt
  | part :: ps =>
      let* part_length := len part in
      let* _ := setslice mv offset (offset + part_length) part in
      copy_parts mv ps (offset + part_length)
  end.

Definition build_packet (parts : list value) : M value :=
  let* total_size := sum_len parts 0 in
  let* buf := bytearray total_size in
  let* mv := memoryview buf in
  let* _ := copy_parts mv parts 0 in
  let mv := release mv in
  ret buf.

(** [p] is a byte source holding [s] in the store [h]. *)
Definition source (h : heap) (p : value) (s : list byte) : Prop :=
  exists l b, exports h p l b /\ buf_bytes b = s.

(** The store that a run ends with, normally or by an exception. *)
Definition final {A} (o : outcome A) : option heap :=
  match o with
  | Done h _ | Raised h _ => Some h
  | Fault | OutOfFuel => None
  end.

(** The run ends with the store [h] it started from. *)
Definition keeps {A} (h : heap) (o : outcome A) : Prop :=
  forall h', final o = Some h' -> h' = h.

(** The run ends with the store [h] and, after it, one writable object. *)
Definition appends {A} (h : heap) (o : outcome A) : Prop :=
  forall h', final o = Some h' -> exists bs, h' = h ++ [Buffer false bs].

(** [p] refers to an object of the store [h], if to any. *)
Definition in_store (h : heap) (p : value) : Prop :=
  match p with
  | Obj l => (l < length h)%nat
  | View mv => (mv_obj mv < length h)%nat
  | Sized _ => True
  end.

(** [len(p)] raises: [p] has no well-defined length. *)
Definition ill_defined_length (h : heap) (p : value) : Prop :=
  exists h' e, len p h = Raised h' e.

(** ** Runs on the notebook's data *)

Definition ascii_bytes (s : string) : list byte := list_byte_of_string s.

(** The bytes that case 1 reverses. *)
Definition alphabet : list byte := ascii_bytes "abcdefghijklmnopqrstuvwxyz".

(** A header of 16 bytes whose first eight are [00 00 00 01 00 02 00 03]. *)
Definition header_123 : list byte :=
  [Byte.x00; Byte.x00; Byte.x00; Byte.x01; Byte.x00; Byte.x02; Byte.x00; Byte.x03;
   Byte.xde; Byte.xad; Byte.xbe; Byte.xef; Byte.x00; Byte.xff; Byte.x10; Byte.x80].

(** The three parts that case 5 assembles, as [bytes] objects 0, 1 and 2. *)
Definition packet_store : heap :=
  [bytes_obj (ascii_bytes "HEAD"); bytes_obj (ascii_bytes "DATA");
   bytes_obj (ascii_bytes "TAIL")].
Definition packet_parts : list value := [Obj 0%nat; Obj 1%nat; Obj 2%nat].


(** ** Loop unrolling: element-wise addition

    [normal_loop] and [unrolled_loop] of the loop-unrolling notebook add two
    arrays element by element into a third.  The arrays (Python lists or
    one-dimensional numpy arrays) live in a store of their own, array number
    [a] at index [a], so that [out] may be the very array that [x] or [y]
    is.  The elements and their [+] are left open. *)

(** How a run over arrays ends: normally, by an exception, or [Lost] on a
    reference to no array of the store. *)
Inductive result (A T : Type) : Type :=
| Ok (st : list (list A)) (v : T)
| Err (st : list (list A)) (e : exn)
| Lost.
Arguments Ok {A T} st v.
Arguments Err {A T} st e.
Arguments Lost {A T}.

(** [range(start, stop, step)] as the list of its integers; the step is 1
    or 4 in the loops (a step of 0, which Python refuses, gives none). *)
Definition range (start stop step : Z) : list Z :=
  let count :=
    if 0 <? step then (stop - start + step - 1) / step
    else if step <? 0 then (start - stop - step - 1) / (- step)
    else 0 in
  (fun k : nat => start + step * Z.of_nat k) <$> seq 0 (Z.to_nat count).

Section Elementwise.
Context {A : Type} (add : A -> A -> A).

Definition R (T : Type) : Type := list (list A) -> result A T.

Definition unit_ {T} (v : T) : R T := fun st => Ok st v.

Definition then_ {T U} (m : R T) (k : T -> R U) : R U :=
  fun st =>
    match m st with
    | Ok st' v => k v st'
    | Err st' e => Err st' e
    | Lost => Lost
    end.

Local Notation "'let+' x ':=' m 'in' k" := (then_ m (fun x => k))
  (at level 10, x name, m at level 100, k at level 200).

(** [len(a)] *)
Definition arr_len (a : loc) : R Z :=
  fun st =>
    match st !! a with
    | Some l => Ok st (Z.of_nat (length l))
    | None => Lost
    end.

(** [a[i]] *)
Definition arr_get (a : loc) (i : Z) : R A :=
  fun st =>
    match st !! a with
    | Some l =>
        let j := wrap_index (Z.of_nat (length l)) i in
        if j <? 0 then Err st IndexError
        else match l !! Z.to_nat j with
             | Some v => Ok st v
             | None => Err st IndexError
             end
    | None => Lost
    end.

(** [a[i] = v] *)
Definition arr_set (a : loc) (i : Z) (v : A) : R unit :=
  fun st =>
    match st !! a with
    | Some l =>
        let n := Z.of_nat (length l) in
        let j := wrap_index n i in
        if (j <? 0) || (n <=? j) then Err st IndexError
        else Ok (<[a := <[Z.to_nat j := v]> l]> st) tt
    | None => Lost
    end.

(** [out[i] = x[i] + y[i]]: the sum is computed, then stored. *)
Definition add_at (x y out : loc) (i : Z) : R unit :=
  let+ a := arr_get x i in
  let+ b := arr_get y i in
  arr_set out i (add a b).

(** [for i in indices: body(i)] *)
Fixpoint for_in (indices : list Z) (body : Z -> R unit) : R unit :=
  match indices with
  | [] => unit_ tt
  | i :: rest => let+ _ := body i in for_in rest body
  end.

Definition normal_loop (x y out : loc) : R unit :=
  let+ n := arr_len x in
  for_in (range 0 n 1) (add_at x y out).

Definition unrolled_loop (x y out : loc) : R unit :=
  let+ n := arr_len x in
  let+ _ := for_in (range 0 (n - 3) 4) (fun i =>
              let+ _ := add_at x y out i in
              let+ _ := add_at x y out (i + 1) in
              let+ _ := add_at x y out (i + 2) in
              add_at x y out (i + 3)) in
  let+ n1 := arr_len x in
  let+ n2 := arr_len x in
  let+ n3 := arr_len x in
  for_in (range (n1 - n2 mod 4) n3 1) (add_at x y out).

(** The array [out] after the first [i] sums were stored over [os]. *)
Definition summed (i : nat) (xs ys os : list A) : list A :=
  take i (zip_with add xs ys) ++ drop i os.

End Elementwise.

(** ** Facts about the primitive operations *)

Lemma bind_Done {A B} (m : M A) (k : A -> M B) h h' a :
  m h = Done h' a -> bind m k h = k a h'.
Proof. unfold bind. intros ->. reflexivity. Qed.

Lemma bind_Raised {A B} (m : M A) (k : A -> M B) h h' e :
  m h = Raised h' e -> bind m k h = Raised h' e.
Proof. unfold bind. intros ->. reflexivity. Qed.

(** Runs the first computation of a [bind] by an equation for it. *)
Tactic Notation "run" uconstr(H) := rewrite (bind_Done _ _ _ _ _ H).

Lemma deref_Some h l b : h !! l = Some b -> deref l h = Done h b.
Proof. unfold deref. intros ->. reflexivity. Qed.

Lemma store_Some h l b b' :
  h !! l = Some b -> store l b' h = Done (<[l := b']> h) tt.
Proof.
  intros Hl. unfold store.
  destruct (decide (l < length h)%nat) as [|Hn]; [reflexivity|].
  exfalso. apply Hn. eapply lookup_lt_Some, Hl.
Qed.

Lemma getitem_nat h l b (i : nat) x :
  h !! l = Some b -> buf_bytes b !! i = Some x ->
  getitem (MemView l false) (Z.of_nat i) h = Done h x.
Proof.
  intros Hl Hi. unfold getitem. cbn [mv_released mv_obj].
  run (deref_Some _ _ _ Hl).
  unfold wrap_index.
  destruct (Z.ltb_spec (Z.of_nat i) 0) as [?|_]; [lia|].
  destruct (Z.ltb_spec (Z.of_nat i) 0) as [?|_]; [lia|].
  rewrite Nat2Z.id, Hi. reflexivity.
Qed.

Lemma setitem_nat h l bs (i : nat) x :
  h !! l = Some (Buffer false bs) -> (i < length bs)%nat ->
  setitem (MemView l false) (Z.of_nat i) x h
  = Done (<[l := Buffer false (<[i := x]> bs)]> h) tt.
Proof.
  intros Hl Hi. unfold setitem. cbn [mv_released mv_obj].
  run (deref_Some _ _ _ Hl). cbn [buf_readonly buf_bytes].
  unfold wrap_index.
  destruct (Z.ltb_spec (Z.of_nat i) 0) as [?|_]; [lia|].
  destruct (Z.ltb_spec (Z.of_nat i) 0) as [?|_]; [lia|].
  destruct (Z.leb_spec (Z.of_nat (length bs)) (Z.of_nat i)) as [?|_]; [lia|].
  cbn [orb]. rewrite Nat2Z.id. eapply store_Some, Hl.
Qed.

Lemma insert_middle {A} (l1 l2 : list A) (x y : A) :
  <[length l1 := y]> (l1 ++ x :: l2) = l1 ++ y :: l2.
Proof.
  rewrite <- (Nat.add_0_r (length l1)) at 1. rewrite insert_app_r. reflexivity.
Qed.

(** ** Case 1: the swap and the loop *)

(** One turn of the loop exchanges the two bytes under the cursors and
    touches nothing else. *)
Lemma swap_spec h l pre x mid y post :
  h !! l = Some (Buffer false (pre ++ x :: mid ++ y :: post)) ->
  swap (MemView l false)
       (Z.of_nat (length pre)) (Z.of_nat (length pre + S (length mid))) h
  = Done (<[l := Buffer false (pre ++ y :: mid ++ x :: post)]> h) tt.
Proof.
  intros Hl. unfold swap.
  assert (Hr : forall a b : byte,
             length (pre ++ a :: mid) = (length pre + S (length mid))%nat).
  { intros. rewrite length_app. reflexivity. }
  rewrite (bind_Done _ _ h h y).
  2:{ eapply getitem_nat; [exact Hl|]. cbn [buf_bytes].
      change (pre ++ x :: mid ++ y :: post) with (pre ++ (x :: mid) ++ y :: post).
      rewrite app_assoc. apply list_lookup_middle. symmetry. apply (Hr x x). }
  rewrite (bind_Done _ _ h h x).
  2:{ eapply getitem_nat; [exact Hl|]. cbn [buf_bytes].
      apply list_lookup_middle. reflexivity. }
  erewrite bind_Done.
  2:{ eapply setitem_nat; [exact Hl|]. rewrite length_app. cbn. lia. }
  rewrite insert_middle.
  erewrite setitem_nat.
  2:{ apply list_lookup_insert_eq. eapply lookup_lt_Some, Hl. }
  2:{ rewrite length_app. cbn. rewrite length_app. cbn. lia. }
  rewrite list_insert_insert_eq. do 3 f_equal.
  change (pre ++ y :: mid ++ y :: post) with (pre ++ (y :: mid) ++ y :: post).
  rewrite app_assoc, <- (Hr y y), insert_middle, <- app_assoc. reflexivity.
Qed.

(** The loop between two cursors reverses the bytes from [left] to [right]
    and keeps the bytes outside, when it has a unit of fuel for each pair. *)
Lemma reverse_loop_spec fuel : forall mid pre post h l,
  h !! l = Some (Buffer false (pre ++ mid ++ post)) ->
  (length mid <= 2 * fuel + 1)%nat ->
  reverse_loop fuel (MemView l false)
    (Z.of_nat (length pre)) (Z.of_nat (length pre) + Z.of_nat (length mid) - 1) h
  = Done (<[l := Buffer false (pre ++ reverse mid ++ post)]> h) tt.
Proof.
  induction fuel as [|fuel IH]; intros mid pre post h l Hl Hfuel.
  - assert (Hrev : reverse mid = mid).
    { destruct mid as [|x [|y mid]]; [reflexivity|reflexivity|cbn in Hfuel; lia]. }
    rewrite Hrev. rewrite (list_insert_id _ _ _ Hl). cbn [reverse_loop].
    destruct (Z.ltb_spec (Z.of_nat (length pre))
                (Z.of_nat (length pre) + Z.of_nat (length mid) - 1)) as [Hlt|_];
      [|reflexivity].
    destruct mid as [|x [|y mid]]; cbn in Hlt, Hfuel; lia.
  - destruct mid as [|x mid].
    { change (reverse (@nil byte)) with (@nil byte).
      rewrite (list_insert_id _ _ _ Hl). cbn [reverse_loop length].
      destruct (Z.ltb_spec (Z.of_nat (length pre))
                  (Z.of_nat (length pre) + Z.of_nat 0 - 1)) as [Hlt|_];
        [lia|reflexivity]. }
    destruct mid as [|y mid _] using rev_ind.
    { change (reverse [x]) with [x].
      rewrite (list_insert_id _ _ _ Hl). cbn [reverse_loop length].
      destruct (Z.ltb_spec (Z.of_nat (length pre))
                  (Z.of_nat (length pre) + Z.of_nat 1 - 1)) as [Hlt|_];
        [lia|reflexivity]. }
    cbn [reverse_loop]. cbn [length] in *. rewrite length_app in *. cbn [length] in *.
    destruct (Z.ltb_spec (Z.of_nat (length pre))
                (Z.of_nat (length pre) + Z.of_nat (S (length mid + 1)) - 1)) as [_|Hge];
      [|lia].
    replace (Z.of_nat (length pre) + Z.of_nat (S (length mid + 1)) - 1)
      with (Z.of_nat (length pre + S (length mid))) by lia.
    rewrite (bind_Done _ _ h _ tt (swap_spec h l pre x mid y post
      ltac:(rewrite Hl; cbn; rewrite <- !app_assoc; reflexivity))).
    replace (Z.of_nat (length pre) + 1) with (Z.of_nat (length (pre ++ [y])))
      by (rewrite length_app; cbn; lia).
    replace (Z.of_nat (length pre + S (length mid)) - 1)
      with (Z.of_nat (length (pre ++ [y])) + Z.of_nat (length mid) - 1)
      by (rewrite length_app; cbn; lia).
    rewrite (IH mid (pre ++ [y]) (x :: post)).
    + rewrite list_insert_insert_eq. do 3 f_equal.
      rewrite reverse_cons, reverse_snoc. cbn. rewrite <- !app_assoc. reflexivity.
    + rewrite list_lookup_insert_eq by (eapply lookup_lt_Some, Hl).
      rewrite <- !app_assoc. reflexivity.
    + lia.
Qed.

Lemma getbuffer_store h h' v l : getbuffer v h = Done h l -> getbuffer v h' = Done h' l.
Proof.
  destruct v as [l0|[l0 [|]]|n]; cbn; unfold ret, raise; intros H;
    inversion H; subst; reflexivity.
Qed.

Lemma exports_lookup h v l b : exports h v l b -> h !! l = Some b.
Proof. intros [_ H]. exact H. Qed.

Lemma memoryview_exports h v l b :
  exports h v l b -> memoryview v h = Done h (MemView l false).
Proof.
  intros [Hg Hl]. unfold memoryview.
  rewrite (bind_Done _ _ _ _ _ Hg), (bind_Done _ _ _ _ _ (deref_Some _ _ _ Hl)).
  reflexivity.
Qed.

Lemma memoryview_last h b :
  memoryview (Obj (length h)) (h ++ [b]) = Done (h ++ [b]) (MemView (length h) false).
Proof.
  apply (memoryview_exports _ _ _ b). split; [reflexivity|].
  apply list_lookup_middle. reflexivity.
Qed.

Lemma len_mv_live h l b :
  h !! l = Some b ->
  len_mv (MemView l false) h = Done h (Z.of_nat (length (buf_bytes b))).
Proof.
  intros Hl. unfold len_mv. cbn [mv_released mv_obj].
  run (deref_Some _ _ _ Hl). reflexivity.
Qed.

(** The loop is left at once, whatever the fuel, when the cursors have met. *)
Lemma reverse_loop_exit fuel mv left right h :
  right <= left -> reverse_loop fuel mv left right h = Done h tt.
Proof.
  intros Hle. destruct fuel; cbn [reverse_loop];
    destruct (Z.ltb_spec left right); (lia || reflexivity).
Qed.

(** A turn of the loop is the swap, then the loop from cursors one step
    further in. *)
Lemma reverse_loop_turn fuel mv left right h :
  left < right ->
  reverse_loop (S fuel) mv left right h
  = (let* _ := swap mv left right in
     reverse_loop fuel mv (left + 1) (right - 1)) h.
Proof.
  intros Hlt. cbn [reverse_loop].
  destruct (Z.ltb_spec left right); [reflexivity|lia].
Qed.

Lemma getitem_halts mv i h : getitem mv i h <> OutOfFuel.
Proof.
  unfold getitem, bind, deref, raise, ret.
  repeat case_match; congruence.
Qed.

Lemma setitem_halts mv i x h : setitem mv i x h <> OutOfFuel.
Proof.
  unfold setitem, bind, deref, store, raise, ret.
  repeat case_match; congruence.
Qed.

Lemma swap_halts mv left right h : swap mv left right h <> OutOfFuel.
Proof.
  unfold swap, bind.
  pose proof (getitem_halts mv right h).
  destruct (getitem mv right h) as [h1 a| | |]; try congruence.
  pose proof (getitem_halts mv left h1).
  destruct (getitem mv left h1) as [h2 b| | |]; try congruence.
  pose proof (setitem_halts mv left a h2).
  destruct (setitem mv left a h2) as [h3 []| | |]; try congruence.
  apply setitem_halts.
Qed.

(** The distance between the cursors shrinks by two each turn, so half of
    it is fuel enough. *)
Lemma reverse_loop_halts fuel : forall mv left right h,
  right - left <= 2 * Z.of_nat fuel ->
  reverse_loop fuel mv left right h <> OutOfFuel.
Proof.
  induction fuel as [|fuel IH]; intros mv left right h Hm.
  - rewrite reverse_loop_exit by lia. congruence.
  - destruct (Z.lt_ge_cases left right) as [Hlt|Hge].
    + rewrite reverse_loop_turn by exact Hlt. unfold bind.
      pose proof (swap_halts mv left right h).
      destruct (swap mv left right h) as [h1 []| | |]; try congruence.
      apply IH. lia.
    + rewrite reverse_loop_exit by lia. congruence.
Qed.

Lemma reverse_inplace_run fuel h data l bs :
  exports h data l (bytearray_obj bs) ->
  (length bs <= 2 * fuel + 1)%nat ->
  reverse_inplace fuel data h = Done (<[l := bytearray_obj (reverse bs)]> h) tt.
Proof.
  intros Hex Hfuel. pose proof (exports_lookup _ _ _ _ Hex) as Hl.
  unfold reverse_inplace.
  run (memoryview_exports _ _ _ _ Hex).
  run (len_mv_live _ _ _ Hl). cbn [buf_bytes bytearray_obj].
  pose proof (reverse_loop_spec fuel bs [] [] h l) as Hloop.
  rewrite !app_nil_r in Hloop. cbn [app length] in Hloop.
  run (Hloop Hl Hfuel). reflexivity.
Qed.

Lemma reverse_inplace_short fuel h data l b :
  exports h data l b ->
  (length (buf_bytes b) <= 1)%nat ->
  reverse_inplace fuel data h = Done h tt.
Proof.
  intros Hex Hlen. pose proof (exports_lookup _ _ _ _ Hex) as Hl.
  unfold reverse_inplace.
  run (memoryview_exports _ _ _ _ Hex).
  run (len_mv_live _ _ _ Hl).
  rewrite (bind_Done _ _ h h tt) by (apply reverse_loop_exit; lia).
  reflexivity.
Qed.

(** ** Case 1: what the specification states *)

(** C5. On a writable buffer, [reverse_inplace] leaves in the same object
    the reversed bytes: the length is unchanged and the byte at index [i] is
    the one that was at index [length - 1 - i].  Nothing else of the store
    changes. *)
Theorem reverse_inplace_reverses fuel h data l bs :
  exports h data l (bytearray_obj bs) ->
  (length bs <= 2 * fuel + 1)%nat ->
  reverse_inplace fuel data h = Done (<[l := bytearray_obj (reverse bs)]> h) tt
  /\ length (reverse bs) = length bs
  /\ forall i : nat, (i < length bs)%nat ->
       reverse bs !! i = bs !! (length bs - 1 - i)%nat.
Proof.
  intros Hex Hfuel. split; [|split].
  - apply reverse_inplace_run; assumption.
  - apply length_reverse.
  - intros i Hi. rewrite reverse_lookup by exact Hi. f_equal. lia.
Qed.

(** The notebook's run: the alphabet reversed, of which it prints ten bytes. *)
Lemma reverse_inplace_reverses_alphabet :
  exports [bytearray_obj alphabet] (Obj 0%nat) 0%nat (bytearray_obj alphabet)
  /\ (length alphabet <= 2 * 13 + 1)%nat
  /\ reverse_inplace 13 (Obj 0%nat) [bytearray_obj alphabet]
     = Done [bytearray_obj (ascii_bytes "zyxwvutsrqponmlkjihgfedcba")] tt
  /\ take 10 (ascii_bytes "zyxwvutsrqponmlkjihgfedcba") = ascii_bytes "zyxwvutsrq".
Proof.
  assert (Hex : exports [bytearray_obj alphabet] (Obj 0%nat) 0%nat (bytearray_obj alphabet))
    by (split; reflexivity).
  assert (Hfuel : (length alphabet <= 2 * 13 + 1)%nat) by (vm_compute; lia).
  split; [exact Hex|]. split; [exact Hfuel|]. split; [|reflexivity].
  exact (proj1 (reverse_inplace_reverses 13 _ _ _ _ Hex Hfuel)).
Defined.

(** C6. Two calls in a row give back the store as it was; one call on a
    buffer of at most one byte changes nothing (writable or not, and with
    any fuel, for the loop is not entered). *)
Theorem reverse_inplace_involutive fuel h data l b :
  exports h data l b ->
  (buf_readonly b = false ->
   (length (buf_bytes b) <= 2 * fuel + 1)%nat ->
   (let* _ := reverse_inplace fuel data in reverse_inplace fuel data) h = Done h tt)
  /\ ((length (buf_bytes b) <= 1)%nat -> reverse_inplace fuel data h = Done h tt).
Proof.
  intros Hex. split.
  - destruct b as [ro bs]. cbn [buf_readonly buf_bytes]. intros -> Hfuel.
    pose proof (exports_lookup _ _ _ _ Hex) as Hl.
    run (reverse_inplace_run _ _ _ _ _ Hex Hfuel).
    rewrite (reverse_inplace_run fuel _ data l (reverse bs)).
    + rewrite list_insert_insert_eq, reverse_involutive. unfold bytearray_obj.
      rewrite (list_insert_id _ _ _ Hl). reflexivity.
    + split.
      * eapply getbuffer_store, Hex.
      * apply list_lookup_insert_eq. eapply lookup_lt_Some, Hl.
    + rewrite length_reverse. exact Hfuel.
  - intros Hlen. eapply reverse_inplace_short; eassumption.
Qed.

Lemma reverse_inplace_involutive_alphabet :
  exports [bytearray_obj alphabet] (Obj 0%nat) 0%nat (bytearray_obj alphabet)
  /\ (let* _ := reverse_inplace 13 (Obj 0%nat) in reverse_inplace 13 (Obj 0%nat))
       [bytearray_obj alphabet] = Done [bytearray_obj alphabet] tt
  /\ exports [bytes_obj (ascii_bytes "a")] (Obj 0%nat) 0%nat (bytes_obj (ascii_bytes "a"))
  /\ reverse_inplace 0 (Obj 0%nat) [bytes_obj (ascii_bytes "a")]
     = Done [bytes_obj (ascii_bytes "a")] tt.
Proof.
  assert (Hex : exports [bytearray_obj alphabet] (Obj 0%nat) 0%nat (bytearray_obj alphabet))
    by (split; reflexivity).
  assert (Hex1 : exports [bytes_obj (ascii_bytes "a")] (Obj 0%nat) 0%nat
                   (bytes_obj (ascii_bytes "a")))
    by (split; reflexivity).
  split; [exact Hex|]. split.
  - apply (proj1 (reverse_inplace_involutive 13 _ _ _ _ Hex)); [reflexivity|].
    vm_compute. lia.
  - split; [exact Hex1|].
    apply (proj2 (reverse_inplace_involutive 0 _ _ _ _ Hex1)). vm_compute. lia.
Defined.

(** C10. [reverse_inplace] terminates.  A turn of the loop moves [left] up
    by one and [right] down by one, so the distance [right - left] strictly
    decreases; the loop is left as soon as [left >= right]; hence half the
    length of the buffer is fuel enough for the call to end, normally or by
    an exception. *)
Theorem reverse_inplace_terminates fuel data h l b :
  exports h data l b ->
  (length (buf_bytes b) <= 2 * fuel + 1)%nat ->
  reverse_inplace fuel data h <> OutOfFuel
  /\ (forall mv left right h1, left < right ->
        reverse_loop (S fuel) mv left right h1
        = (let* _ := swap mv left right in
           reverse_loop fuel mv (left + 1) (right - 1)) h1
        /\ 0 <= (right - 1) - (left + 1) + 1 < right - left)
  /\ (forall mv left right h1, right <= left ->
        reverse_loop fuel mv left right h1 = Done h1 tt).
Proof.
  intros Hex Hfuel. split; [|split].
  - pose proof (exports_lookup _ _ _ _ Hex) as Hl.
    unfold reverse_inplace.
    run (memoryview_exports _ _ _ _ Hex).
    run (len_mv_live _ _ _ Hl).
    unfold bind.
    pose proof (reverse_loop_halts fuel (MemView l false) 0
                  (Z.of_nat (length (buf_bytes b)) - 1) h ltac:(lia)) as Hhalt.
    destruct (reverse_loop fuel (MemView l false) 0
                (Z.of_nat (length (buf_bytes b)) - 1) h) as [h1 []| | |];
      unfold ret; congruence.
  - intros mv left right h1 Hlt. split; [|lia].
    apply reverse_loop_turn. exact Hlt.
  - intros mv left right h1 Hle. apply reverse_loop_exit. exact Hle.
Qed.

(** Thirteen turns reverse the alphabet, and no fewer do. *)
Lemma reverse_inplace_terminates_alphabet :
  exports [bytearray_obj alphabet] (Obj 0%nat) 0%nat (bytearray_obj alphabet)
  /\ (length alphabet <= 2 * 13 + 1)%nat
  /\ reverse_inplace 13 (Obj 0%nat) [bytearray_obj alphabet] <> OutOfFuel
  /\ reverse_inplace 12 (Obj 0%nat) [bytearray_obj alphabet] = OutOfFuel.
Proof.
  assert (Hex : exports [bytearray_obj alphabet] (Obj 0%nat) 0%nat (bytearray_obj alphabet))
    by (split; reflexivity).
  assert (Hfuel : (length alphabet <= 2 * 13 + 1)%nat) by (vm_compute; lia).
  split; [exact Hex|]. split; [exact Hfuel|]. split; [|reflexivity].
  exact (proj1 (reverse_inplace_terminates 13 _ _ _ _ Hex Hfuel)).
Defined.

(** On a [bytes] object of two bytes or more the first assignment raises. *)
Example reverse_inplace_bytes :
  reverse_inplace 1 (Obj 0%nat) [bytes_obj (ascii_bytes "ab")]
  = Raised [bytes_obj (ascii_bytes "ab")] TypeError.
Proof. reflexivity. Qed.

(** ** Case 2: decoding *)

Lemma byte_value_range b : 0 <= byte_value b < 256.
Proof.
  unfold byte_value. pose proof (Byte.to_N_bounded b). lia.
Qed.

(** Shifting by a byte and or-ing a byte in is the positional step. *)
Lemma shift_or_byte x v : 0 <= v < 256 -> Z.lor (Z.shiftl x 8) v = x * 256 + v.
Proof.
  intros Hv. rewrite Z.shiftl_mul_pow2 by lia. change (2 ^ 8) with 256.
  rewrite <- Z.lxor_lor, <- Z.add_nocarry_lxor; try reflexivity.
  all: apply Z.bits_inj'; intros n Hn; rewrite Z.land_spec, Z.bits_0;
    destruct (Z.lt_ge_cases n 8) as [Hlow|Hhigh].
  all: try (change 256 with (2 ^ 8); rewrite Z.mul_pow2_bits_low by lia; reflexivity).
  all: rewrite <- (Z.mod_small v (2 ^ 8)) by (change (2 ^ 8) with 256; lia);
    rewrite Z.mod_pow2_bits_high by lia; apply andb_false_r.
Qed.

Lemma bu_uint_from x bs :
  fold_left (fun x b => Z.lor (Z.shiftl x 8) (byte_value b)) bs x
  = x * 256 ^ Z.of_nat (length bs) + big_endian bs.
Proof.
  revert x. induction bs as [|b bs IH]; intros x.
  - cbn. lia.
  - cbn [fold_left big_endian length]. rewrite IH.
    rewrite shift_or_byte by apply byte_value_range.
    rewrite Nat2Z.inj_succ, Z.pow_succ_r by lia. ring.
Qed.

(** The module's reading of a field is the big-endian value of its bytes. *)
Lemma bu_uint_big_endian bs : bu_uint bs = big_endian bs.
Proof. unfold bu_uint. rewrite bu_uint_from. lia. Qed.

Lemma calcsize_cons c fmt : calcsize (c :: fmt) = (code_size c + calcsize fmt)%nat.
Proof. reflexivity. Qed.

Lemma code_size_pos c : (1 <= code_size c)%nat.
Proof. destruct c; cbn; lia. Qed.

Lemma calcsize_take i fmt : (calcsize (take i fmt) <= calcsize fmt)%nat.
Proof.
  revert i. induction fmt as [|c fmt IH]; intros [|i]; cbn [take];
    rewrite ?calcsize_cons; try (cbn; lia).
  specialize (IH i). lia.
Qed.

Lemma calcsize_take_lookup i c fmt :
  fmt !! i = Some c -> (calcsize (take i fmt) + code_size c <= calcsize fmt)%nat.
Proof.
  revert i. induction fmt as [|c0 fmt IH]; intros [|i] Hi; cbn in Hi; try discriminate.
  - inversion Hi; subst. cbn [take]. rewrite calcsize_cons. cbn. lia.
  - cbn [take]. rewrite !calcsize_cons. specialize (IH i Hi). lia.
Qed.

Lemma length_unpack_fields fmt bs : length (unpack_fields fmt bs) = length fmt.
Proof.
  revert bs. induction fmt as [|c fmt IH]; intros bs; cbn; [reflexivity|].
  rewrite IH. reflexivity.
Qed.

Lemma unpack_fields_lookup fmt : forall bs i c,
  fmt !! i = Some c ->
  unpack_fields fmt bs !! i
  = Some (bu_uint (take (code_size c) (drop (calcsize (take i fmt)) bs))).
Proof.
  induction fmt as [|c0 fmt IH]; intros bs [|i] c Hi; cbn in Hi; try discriminate.
  - inversion Hi; subst. reflexivity.
  - cbn [unpack_fields take]. rewrite calcsize_cons.
    change ((?x :: ?l) !! S i) with (l !! i).
    rewrite (IH _ _ _ Hi), drop_drop. reflexivity.
Qed.

(** What [unpack_from] does at an offset counted from the start. *)
Lemma unpack_from_nat h buffer l b fmt (offset : nat) :
  exports h buffer l b ->
  unpack_from fmt buffer (Z.of_nat offset) h
  = if decide (offset + calcsize fmt <= length (buf_bytes b))%nat
    then Done h (unpack_fields fmt (drop offset (buf_bytes b)))
    else Raised h struct_error.
Proof.
  intros [Hg Hl]. unfold unpack_from.
  rewrite (bind_Done _ _ _ _ _ Hg), (bind_Done _ _ _ _ _ (deref_Some _ _ _ Hl)).
  destruct (Z.ltb_spec (Z.of_nat offset) 0) as [?|_]; [lia|]. cbn [andb].
  destruct (Z.ltb_spec (Z.of_nat (length (buf_bytes b)) - Z.of_nat offset)
              (Z.of_nat (calcsize fmt))) as [Hlt|Hge];
    destruct (decide (offset + calcsize fmt <= length (buf_bytes b))%nat) as [Hd|Hd];
    try lia.
  - reflexivity.
  - rewrite Nat2Z.id. reflexivity.
Qed.

(** ** Case 2: what the specification states *)

(** C2. When the layout fits in the buffer from [offset] on,
    [struct.unpack_from] returns one value per field of the layout, and the
    value of a field is the big-endian unsigned integer of that field's own
    bytes: the [code_size] bytes that follow the earlier fields.  The store
    is left as it was. *)
Theorem unpack_from_decodes h buffer l b fmt (offset : nat) :
  exports h buffer l b ->
  (offset + calcsize fmt <= length (buf_bytes b))%nat ->
  exists vals,
    unpack_from fmt buffer (Z.of_nat offset) h = Done h vals
    /\ length vals = length fmt
    /\ forall i c, fmt !! i = Some c ->
         length (field_bytes fmt offset i c (buf_bytes b)) = code_size c
         /\ vals !! i = Some (big_endian (field_bytes fmt offset i c (buf_bytes b))).
Proof.
  intros Hex Hfit. exists (unpack_fields fmt (drop offset (buf_bytes b))).
  split; [|split].
  - rewrite (unpack_from_nat _ _ _ _ _ _ Hex).
    destruct (decide (offset + calcsize fmt <= length (buf_bytes b))%nat);
      [reflexivity|contradiction].
  - apply length_unpack_fields.
  - intros i c Hi. unfold field_bytes. split.
    + pose proof (calcsize_take_lookup _ _ _ Hi).
      rewrite length_take, length_drop. lia.
    + rewrite (unpack_fields_lookup _ _ _ _ Hi), drop_drop, bu_uint_big_endian.
      reflexivity.
Qed.

(** The header [00 00 00 01 00 02 00 03 ...] read as [">IHH"] at offset 0. *)
Lemma unpack_from_decodes_123 :
  exports [bytearray_obj header_123] (Obj 0%nat) 0%nat (bytearray_obj header_123)
  /\ (0 + calcsize [uI; uH; uH] <= length header_123)%nat
  /\ length header_123 = 16%nat
  /\ unpack_from [uI; uH; uH] (Obj 0%nat) 0 [bytearray_obj header_123]
     = Done [bytearray_obj header_123] [1; 2; 3].
Proof.
  assert (Hex : exports [bytearray_obj header_123] (Obj 0%nat) 0%nat
                  (bytearray_obj header_123)) by (split; reflexivity).
  assert (Hfit : (0 + calcsize [uI; uH; uH] <= length header_123)%nat)
    by (vm_compute; lia).
  split; [exact Hex|]. split; [exact Hfit|]. split; [reflexivity|].
  destruct (unpack_from_decodes _ _ _ _ [uI; uH; uH] 0%nat Hex Hfit)
    as (vals & Hrun & Hlen & Hval).
  change (Z.of_nat 0) with 0 in Hrun. rewrite Hrun. f_equal.
  destruct vals as [|v0 [|v1 [|v2 [|v3 vals]]]]; try discriminate Hlen.
  pose proof (proj2 (Hval 0%nat uI eq_refl)) as H0.
  pose proof (proj2 (Hval 1%nat uH eq_refl)) as H1.
  pose proof (proj2 (Hval 2%nat uH eq_refl)) as H2.
  vm_compute in H0, H1, H2. congruence.
Defined.

(** The cell of case 2 on any header that starts with
    [00 00 00 01 00 02 00 03]: the three names are bound to 1, 2 and 3. *)
Lemma parse_header_123 h tail :
  let header := [Byte.x00; Byte.x00; Byte.x00; Byte.x01;
                 Byte.x00; Byte.x02; Byte.x00; Byte.x03] ++ tail in
  parse_header header h = Done (h ++ [bytearray_obj header]) (1, 2, 3).
Proof.
  intros header. unfold parse_header, bytearray_of.
  rewrite (bind_Done _ _ h (h ++ [bytearray_obj header]) (Obj (length h)))
    by reflexivity.
  run (memoryview_last _ _).
  assert (Hex : exports (h ++ [bytearray_obj header])
                  (View (MemView (length h) false)) (length h) (bytearray_obj header)).
  { split; [reflexivity|]. apply list_lookup_middle. reflexivity. }
  run (unpack_from_nat _ _ _ _ [uI; uH; uH] 0%nat Hex).
  destruct (decide (0 + calcsize [uI; uH; uH] <= length (buf_bytes (bytearray_obj header)))%nat)
    as [_|Hn].
  - reflexivity.
  - exfalso. apply Hn. subst header. cbn. lia.
Qed.

(** An offset counted from the end: the last eight bytes are read. *)
Example unpack_from_negative_offset :
  unpack_from [uI; uH; uH] (Obj 0%nat) (-8) [bytes_obj (rev header_123)]
  = Done [bytes_obj (rev header_123)] [50332160; 256; 0].
Proof. reflexivity. Qed.

(** C3. At an offset counted from the start, [struct.unpack_from] raises
    [struct.error] exactly when the layout does not fit in what the buffer
    holds from the offset on.  When it ends exactly at the end of the
    buffer the call succeeds; one byte further it fails. *)
Theorem unpack_from_bounds h buffer l b fmt (offset : nat) :
  exports h buffer l b ->
  (unpack_from fmt buffer (Z.of_nat offset) h = Raised h struct_error
   <-> (length (buf_bytes b) < offset + calcsize fmt)%nat)
  /\ ((offset + calcsize fmt = length (buf_bytes b))%nat ->
      exists vals, unpack_from fmt buffer (Z.of_nat offset) h = Done h vals)
  /\ ((offset + calcsize fmt = length (buf_bytes b) + 1)%nat ->
      unpack_from fmt buffer (Z.of_nat offset) h = Raised h struct_error).
Proof.
  intros Hex. rewrite (unpack_from_nat _ _ _ _ _ _ Hex).
  destruct (decide (offset + calcsize fmt <= length (buf_bytes b))%nat) as [Hd|Hd].
  - split; [|split].
    + split; [discriminate|lia].
    + intros _. eexists. reflexivity.
    + lia.
  - split; [|split].
    + split; [lia|reflexivity].
    + lia.
    + reflexivity.
Qed.

Lemma unpack_from_bounds_header :
  let h := [bytes_obj (take 8 header_123); bytes_obj (take 7 header_123)] in
  exports h (Obj 0%nat) 0%nat (bytes_obj (take 8 header_123))
  /\ exports h (Obj 1%nat) 1%nat (bytes_obj (take 7 header_123))
  /\ unpack_from [uI; uH; uH] (Obj 0%nat) 0 h = Done h [1; 2; 3]
  /\ unpack_from [uI; uH; uH] (Obj 1%nat) 0 h = Raised h struct_error
  /\ unpack_from [uI; uH; uH] (Obj 0%nat) 1 h = Raised h struct_error.
Proof.
  intros h.
  assert (Hex0 : exports h (Obj 0%nat) 0%nat (bytes_obj (take 8 header_123)))
    by (split; reflexivity).
  assert (Hex1 : exports h (Obj 1%nat) 1%nat (bytes_obj (take 7 header_123)))
    by (split; reflexivity).
  split; [exact Hex0|]. split; [exact Hex1|]. split; [|split].
  - destruct (proj1 (proj2 (unpack_from_bounds h _ _ _ [uI; uH; uH] 0%nat Hex0)))
      as [vals Hrun]; [reflexivity|].
    change (Z.of_nat 0) with 0 in Hrun. rewrite Hrun.
    vm_compute in Hrun. congruence.
  - apply (proj2 (proj2 (unpack_from_bounds h _ _ _ [uI; uH; uH] 0%nat Hex1))).
    reflexivity.
  - apply (proj1 (unpack_from_bounds h _ _ _ [uI; uH; uH] 1%nat Hex0)).
    vm_compute. lia.
Defined.

(** ** Case 5: the two passes of [build_packet] *)

Lemma exports_app h junk v l b : exports h v l b -> exports (h ++ junk) v l b.
Proof.
  intros [Hg Hl]. split.
  - eapply getbuffer_store, Hg.
  - apply lookup_app_l_Some, Hl.
Qed.

Lemma source_app h junk p s : source h p s -> source (h ++ junk) p s.
Proof.
  intros (l & b & Hex & Hs). exists l, b. split; [|exact Hs].
  apply exports_app, Hex.
Qed.

Lemma len_source h p s : source h p s -> len p h = Done h (Z.of_nat (length s)).
Proof.
  intros (l & b & [Hg Hl] & <-).
  destruct p as [l0|[l0 [|]]|n]; cbn in Hg; unfold ret, raise in Hg;
    inversion Hg; subst.
  - cbn [len]. run (deref_Some _ _ _ Hl). reflexivity.
  - cbn [len]. apply len_mv_live, Hl.
Qed.

Lemma sum_len_sources h parts srcs :
  Forall2 (source h) parts srcs ->
  forall acc, sum_len parts acc h = Done h (acc + Z.of_nat (length (concat srcs))).
Proof.
  induction 1 as [|p s parts srcs Hp _ IH]; intros acc; cbn [sum_len concat].
  - unfold ret. cbn. f_equal. lia.
  - rewrite (bind_Done _ _ _ _ _ (len_source _ _ _ Hp)), IH, length_app.
    f_equal. lia.
Qed.

Lemma bytearray_zeros h (n : nat) :
  bytearray (Z.of_nat n) h
  = Done (h ++ [bytearray_obj (replicate n Byte.x00)]) (Obj (length h)).
Proof.
  unfold bytearray.
  destruct (Z.ltb_spec (Z.of_nat n) 0) as [?|_]; [lia|].
  rewrite Nat2Z.id. reflexivity.
Qed.

Lemma insert_last (h : heap) (b b' : buffer) :
  <[length h := b']> (h ++ [b]) = h ++ [b'].
Proof. apply insert_middle. Qed.

(** Writing a source over the slice it fits fills exactly that slice. *)
Lemma setslice_fill h src s written old rest :
  source h src s ->
  length old = length s ->
  setslice (MemView (length h) false)
    (Z.of_nat (length written)) (Z.of_nat (length written) + Z.of_nat (length s)) src
    (h ++ [Buffer false (written ++ old ++ rest)])
  = Done (h ++ [Buffer false (written ++ s ++ rest)]) tt.
Proof.
  intros Hsrc Hold.
  destruct (source_app _ [Buffer false (written ++ old ++ rest)] _ _ Hsrc)
    as (ls & bsrc & [Hg Hl] & Hs).
  set (hd := h ++ [Buffer false (written ++ old ++ rest)]) in *.
  assert (Hd : hd !! length h = Some (Buffer false (written ++ old ++ rest)))
    by (apply list_lookup_middle; reflexivity).
  unfold setslice. cbn [mv_released mv_obj].
  run (deref_Some _ _ _ Hd). cbn [buf_readonly buf_bytes].
  rewrite (bind_Done _ _ _ _ _ Hg), (bind_Done _ _ _ _ _ (deref_Some _ _ _ Hl)).
  rewrite Hs, !length_app, Hold. unfold clip_index.
  destruct (Z.ltb_spec (Z.of_nat (length written)) 0) as [?|_]; [lia|].
  destruct (Z.ltb_spec (Z.of_nat (length written) + Z.of_nat (length s)) 0)
    as [?|_]; [lia|].
  rewrite (Z.min_l (Z.of_nat (length written))) by lia.
  rewrite (Z.min_l (Z.of_nat (length written) + Z.of_nat (length s))) by lia.
  rewrite Z.max_r by lia.
  destruct (Z.eqb_spec (Z.of_nat (length s))
              (Z.of_nat (length written) + Z.of_nat (length s)
               - Z.of_nat (length written))) as [_|?]; [|lia].
  cbn [negb]. rewrite (store_Some _ _ _ _ Hd). subst hd. rewrite insert_last.
  rewrite Nat2Z.id, take_app_length, <- Nat2Z.inj_add, Nat2Z.id.
  rewrite (app_assoc written old rest), drop_app_length'
    by (rewrite length_app; lia).
  reflexivity.
Qed.

(** The copy pass writes the sources one after the other over the zeros. *)
Lemma copy_parts_sources h parts srcs :
  Forall2 (source h) parts srcs ->
  forall written,
    copy_parts (MemView (length h) false) parts (Z.of_nat (length written))
      (h ++ [Buffer false (written ++ replicate (length (concat srcs)) Byte.x00)])
    = Done (h ++ [Buffer false (written ++ concat srcs)]) tt.
Proof.
  induction 1 as [|p s parts srcs Hp _ IH]; intros written; cbn [copy_parts concat].
  - reflexivity.
  - run (len_source _ _ _ (source_app _ _ _ _ Hp)).
    rewrite length_app, replicate_add.
    rewrite (bind_Done _ _ _ _ _
               (setslice_fill h p s written _ _ Hp (length_replicate _ _))).
    replace (Z.of_nat (length written) + Z.of_nat (length s))
      with (Z.of_nat (length (written ++ s))) by (rewrite length_app; lia).
    rewrite (app_assoc written s), IH, <- app_assoc. reflexivity.
Qed.

Lemma length_concat_sum (srcs : list (list byte)) :
  length (concat srcs) = sum_list (length <$> srcs).
Proof.
  induction srcs as [|s srcs IH]; [reflexivity|].
  cbn. rewrite length_app, IH. reflexivity.
Qed.

Lemma build_packet_sources h parts srcs :
  Forall2 (source h) parts srcs ->
  build_packet parts h = Done (h ++ [bytearray_obj (concat srcs)]) (Obj (length h)).
Proof.
  intros Hsrc. unfold build_packet.
  run (sum_len_sources _ _ _ Hsrc 0). rewrite Z.add_0_l.
  run (bytearray_zeros _ _).
  run (memoryview_last _ _).
  run (copy_parts_sources _ _ _ Hsrc []).
  reflexivity.
Qed.

(** ** What the operations leave in the store *)

Lemma keeps_bind {A B} (m : M A) (k : A -> M B) h :
  keeps h (m h) -> (forall a, keeps h (k a h)) -> keeps h (bind m k h).
Proof.
  unfold keeps, bind. intros Hm Hk h'.
  destruct (m h) as [h1 a| h1 e| |]; cbn; intros Hf.
  - rewrite (Hm h1 eq_refl) in Hf. eapply Hk, Hf.
  - apply Hm. exact Hf.
  - discriminate.
  - discriminate.
Qed.

Lemma keeps_ret {A} (a : A) h : keeps h (ret a h).
Proof. intros h' Hf. cbn in Hf. congruence. Qed.

Lemma keeps_raise {A} e h : keeps h (@raise A e h).
Proof. intros h' Hf. cbn in Hf. congruence. Qed.

Lemma keeps_deref l h : keeps h (deref l h).
Proof. intros h'. unfold deref. destruct (h !! l); cbn; congruence. Qed.

Lemma keeps_getbuffer v h : keeps h (getbuffer v h).
Proof.
  destruct v as [l|[l [|]]|n]; cbn [getbuffer mv_released];
    (apply keeps_ret || apply keeps_raise).
Qed.

Create HintDb frame discriminated.
#[local] Hint Resolve keeps_ret keeps_raise keeps_deref keeps_getbuffer : frame.
#[local] Hint Extern 2 (keeps _ (bind _ _ _)) => apply keeps_bind; [|intro] : frame.

Lemma keeps_len_mv mv h : keeps h (len_mv mv h).
Proof. unfold len_mv. destruct (mv_released mv); auto with frame. Qed.

Lemma keeps_len p h : keeps h (len p h).
Proof.
  destruct p as [l|mv|n]; cbn [len]; auto using keeps_len_mv with frame.
  destruct (n <? 0); auto with frame.
Qed.

Lemma keeps_sum_len parts : forall acc h, keeps h (sum_len parts acc h).
Proof.
  induction parts as [|p parts IH]; intros acc h; cbn [sum_len].
  - apply keeps_ret.
  - apply keeps_bind; [apply keeps_len|]. intros n. apply IH.
Qed.

Lemma keeps_unpack_from fmt buffer offset h : keeps h (unpack_from fmt buffer offset h).
Proof.
  unfold unpack_from.
  apply keeps_bind; [auto with frame|]. intros l.
  apply keeps_bind; [auto with frame|]. intros b.
  repeat case_match; auto with frame.
Qed.

(** A run that keeps the store can be followed by one that appends. *)
Lemma appends_keeps_bind {A B} (m : M A) (k : A -> M B) h0 h :
  keeps h (m h) -> appends h0 (Raised (A:=B) h TypeError) ->
  (forall a, appends h0 (k a h)) -> appends h0 (bind m k h).
Proof.
  unfold keeps, appends, bind. intros Hm Hh Hk h'.
  destruct (m h) as [h1 a| h1 e| |]; cbn; intros Hf.
  - rewrite (Hm h1 eq_refl) in Hf. eapply Hk, Hf.
  - rewrite (Hm h1 eq_refl) in Hf. apply Hh. exact Hf.
  - discriminate.
  - discriminate.
Qed.

Lemma appends_here {A} h bs (o : outcome A) :
  final o = Some (h ++ [Buffer false bs]) -> appends h o.
Proof. intros Ho h' Hf. exists bs. congruence. Qed.

(** A slice assignment through a view of the last object changes at most
    that object. *)
Lemma appends_setslice h bs start stop src :
  appends h (setslice (MemView (length h) false) start stop src
               (h ++ [Buffer false bs])).
Proof.
  set (hd := h ++ [Buffer false bs]).
  assert (Hd : hd !! length h = Some (Buffer false bs))
    by (apply list_lookup_middle; reflexivity).
  assert (Hhere : forall A (e : exn), appends h (Raised (A:=A) hd e))
    by (intros; eapply appends_here; reflexivity).
  unfold setslice. cbn [mv_released mv_obj].
  run (deref_Some _ _ _ Hd). cbn [buf_readonly buf_bytes].
  apply appends_keeps_bind; [apply keeps_getbuffer|apply Hhere|]. intros ls.
  apply appends_keeps_bind; [apply keeps_deref|apply Hhere|]. intros s.
  case_match; [apply Hhere|].
  rewrite (store_Some _ _ _ _ Hd). subst hd. rewrite insert_last.
  eapply appends_here. reflexivity.
Qed.

Lemma appends_copy_parts h parts : forall bs offset,
  appends h (copy_parts (MemView (length h) false) parts offset
               (h ++ [Buffer false bs])).
Proof.
  induction parts as [|p parts IH]; intros bs offset; cbn [copy_parts].
  - eapply appends_here. reflexivity.
  - apply appends_keeps_bind; [apply keeps_len|eapply appends_here; reflexivity|].
    intros n. unfold bind.
    pose proof (appends_setslice h bs offset (offset + n) p) as Hs.
    destruct (setslice _ _ _ _ _) as [h1 []|h1 e| |].
    + destruct (Hs h1 eq_refl) as [bs1 ->]. apply IH.
    + exact Hs.
    + intros h' Hf. discriminate.
    + intros h' Hf. discriminate.
Qed.

(** [build_packet] ends with the caller's store untouched and, when it got
    as far as allocating, one more object after it; a normal end returns
    that object. *)
Lemma build_packet_frame parts h :
  match build_packet parts h with
  | Done h' r => exists bs, h' = h ++ [bytearray_obj bs] /\ r = Obj (length h)
  | Raised h' e => h' = h \/ exists bs, h' = h ++ [bytearray_obj bs]
  | Fault | OutOfFuel => True
  end.
Proof.
  unfold build_packet, bind.
  pose proof (keeps_sum_len parts 0 h) as Hsum.
  destruct (sum_len parts 0 h) as [h1 total|h1 e| |]; try exact I.
  2:{ left. apply Hsum. reflexivity. }
  rewrite (Hsum h1 eq_refl). clear Hsum h1.
  unfold bytearray. destruct (total <? 0); [left; reflexivity|].
  unfold bytearray_of, bind, alloc, ret.
  rewrite memoryview_last.
  pose proof (appends_copy_parts h parts (replicate (Z.to_nat total) Byte.x00) 0) as Hc.
  unfold bytearray_obj.
  destruct (copy_parts _ _ _ _) as [h2 []|h2 e| |]; try exact I.
  - destruct (Hc h2 eq_refl) as [bs ->]. exists bs. split; reflexivity.
  - right. apply Hc. reflexivity.
Qed.

(** ** Lengths that [len] refuses *)

Lemma len_cases h p :
  in_store h p ->
  (exists n, len p h = Done h n) \/ len p h = Raised h ValueError.
Proof.
  destruct p as [l|[l [|]]|n]; cbn [in_store mv_obj]; intros Hin.
  - destruct (lookup_lt_is_Some_2 h l Hin) as [b Hb]. left. eexists.
    cbn [len]. run (deref_Some _ _ _ Hb). reflexivity.
  - right. reflexivity.
  - destruct (lookup_lt_is_Some_2 h l Hin) as [b Hb]. left. eexists.
    cbn [len]. apply len_mv_live, Hb.
  - cbn [len]. destruct (n <? 0); [right|left; eexists]; reflexivity.
Qed.

(** A negative [__len__] and a released memoryview are such lengths; the
    length of a [bytes] or [bytearray] object never is. *)
Lemma ill_defined_negative h n : ill_defined_length h (Sized n) <-> n < 0.
Proof.
  unfold ill_defined_length. cbn [len].
  destruct (Z.ltb_spec n 0) as [Hn|Hn]; split.
  - intros _. exact Hn.
  - intros _. eexists _, _. reflexivity.
  - intros (h' & e & H). discriminate H.
  - lia.
Qed.

Lemma ill_defined_released h l : ill_defined_length h (View (MemView l true)).
Proof. eexists _, _. reflexivity. Qed.

Lemma well_defined_source h p s : source h p s -> ~ ill_defined_length h p.
Proof.
  intros Hs (h' & e & Hr). rewrite (len_source _ _ _ Hs) in Hr. discriminate.
Qed.

Lemma sum_len_ill_defined h parts :
  Forall (in_store h) parts ->
  Exists (ill_defined_length h) parts ->
  forall acc, sum_len parts acc h = Raised h ValueError.
Proof.
  induction 1 as [|p parts Hp _ IH]; intros Hex acc.
  - inversion Hex.
  - cbn [sum_len].
    destruct (len_cases h p Hp) as [[n Hn]|Hr].
    + run Hn. apply IH.
      apply Exists_cons in Hex as [(h' & e & Hbad)|Hex]; [congruence|exact Hex].
    + apply bind_Raised, Hr.
Qed.

(** ** Case 5: what the specification states *)

(** C1. From byte sources, [build_packet] returns a new [bytearray] whose
    bytes are the bytes of the sources, one source after the other in the
    order of the input; its length is the sum of their lengths. *)
Theorem build_packet_concat h parts srcs :
  Forall2 (source h) parts srcs ->
  build_packet parts h = Done (h ++ [bytearray_obj (concat srcs)]) (Obj (length h))
  /\ length (concat srcs) = sum_list (length <$> srcs).
Proof.
  intros Hsrc. split.
  - apply build_packet_sources, Hsrc.
  - apply length_concat_sum.
Qed.

Lemma packet_sources :
  Forall2 (source packet_store) packet_parts
    [ascii_bytes "HEAD"; ascii_bytes "DATA"; ascii_bytes "TAIL"].
Proof.
  repeat constructor; eexists _, _; (split; [split|]); reflexivity.
Defined.

(** The notebook's packet: [HEAD], [DATA] and [TAIL] give the twelve bytes
    [HEADDATATAIL]. *)
Lemma build_packet_concat_packet :
  Forall2 (source packet_store) packet_parts
    [ascii_bytes "HEAD"; ascii_bytes "DATA"; ascii_bytes "TAIL"]
  /\ build_packet packet_parts packet_store
     = Done (packet_store ++ [bytearray_obj (ascii_bytes "HEADDATATAIL")]) (Obj 3%nat)
  /\ length (ascii_bytes "HEADDATATAIL") = 12%nat.
Proof.
  split; [exact packet_sources|]. split; [|reflexivity].
  exact (proj1 (build_packet_concat _ _ _ packet_sources)).
Defined.

(** C4. When some part has no well-defined length (its [__len__] is
    negative, or it is a released memoryview), [build_packet] raises
    [ValueError], Python's error for an invalid input, before it allocates:
    no buffer is returned and the store is as it was. *)
Theorem build_packet_invalid_input h parts :
  Forall (in_store h) parts ->
  Exists (ill_defined_length h) parts ->
  build_packet parts h = Raised h ValueError.
Proof.
  intros Hin Hbad. unfold build_packet.
  apply bind_Raised, sum_len_ill_defined; assumption.
Qed.

Lemma build_packet_invalid_input_negative :
  Forall (in_store packet_store) [Obj 0%nat; Sized (-3); Obj 1%nat]
  /\ Exists (ill_defined_length packet_store) [Obj 0%nat; Sized (-3); Obj 1%nat]
  /\ build_packet [Obj 0%nat; Sized (-3); Obj 1%nat] packet_store
     = Raised packet_store ValueError.
Proof.
  assert (Hin : Forall (in_store packet_store) [Obj 0%nat; Sized (-3); Obj 1%nat])
    by (repeat constructor; cbn; lia).
  assert (Hbad : Exists (ill_defined_length packet_store)
                   [Obj 0%nat; Sized (-3); Obj 1%nat])
    by (apply Exists_cons_tl, Exists_cons_hd, ill_defined_negative; lia).
  split; [exact Hin|]. split; [exact Hbad|].
  exact (build_packet_invalid_input _ _ Hin Hbad).
Defined.

(** A released memoryview among the parts is refused in the same way. *)
Example build_packet_released :
  build_packet [Obj 0%nat; View (MemView 1%nat true)] packet_store
  = Raised packet_store ValueError.
Proof. reflexivity. Qed.

(** C7. On no parts at all [build_packet] succeeds, and the [bytearray] it
    returns holds no byte. *)
Theorem build_packet_empty h :
  exists bs,
    build_packet [] h = Done (h ++ [bytearray_obj bs]) (Obj (length h))
    /\ length bs = 0%nat.
Proof.
  exists []. split; [|reflexivity].
  apply (build_packet_sources h [] []). constructor.
Qed.

(** C8. A call that raises has changed nothing that the caller can reach.
    After a failed [build_packet] every object of the caller's store is as
    before; the buffer under construction, if it was allocated, lies after
    them and is not returned, for an exception carries no result.  A failed
    [struct.unpack_from] leaves the whole store as it was. *)
Theorem failure_is_atomic parts fmt buffer offset h h1 h2 e1 e2 :
  (build_packet parts h = Raised h1 e1 ->
   (exists junk, h1 = h ++ junk /\ (length junk <= 1)%nat)
   /\ forall l b, h !! l = Some b -> h1 !! l = Some b)
  /\ (unpack_from fmt buffer offset h = Raised h2 e2 -> h2 = h).
Proof.
  split.
  - intros Hrun. pose proof (build_packet_frame parts h) as Hf.
    rewrite Hrun in Hf.
    assert (Hjunk : exists junk, h1 = h ++ junk /\ (length junk <= 1)%nat).
    { destruct Hf as [->|[bs ->]].
      - exists []. rewrite app_nil_r. split; [reflexivity|cbn; lia].
      - eexists. split; [reflexivity|cbn; lia]. }
    split; [exact Hjunk|].
    destruct Hjunk as (junk & -> & _). intros l b Hl.
    apply lookup_app_l_Some, Hl.
  - intros Hrun. apply (keeps_unpack_from fmt buffer offset h).
    rewrite Hrun. reflexivity.
Qed.

(** A part that exports no buffer stops the copy pass after [HEAD] was
    written; a header one byte short stops [struct.unpack_from]. *)
Lemma failure_is_atomic_runs :
  let h := packet_store ++ [bytes_obj (take 7 header_123)] in
  let partial := bytearray_obj (ascii_bytes "HEAD" ++ replicate 3 Byte.x00) in
  build_packet [Obj 0%nat; Sized 3] h = Raised (h ++ [partial]) TypeError
  /\ unpack_from [uI; uH; uH] (Obj 3%nat) 0 h = Raised h struct_error
  /\ (forall l b, h !! l = Some b -> (h ++ [partial]) !! l = Some b).
Proof.
  intros h partial.
  assert (Hb : build_packet [Obj 0%nat; Sized 3] h = Raised (h ++ [partial]) TypeError)
    by reflexivity.
  assert (Hu : unpack_from [uI; uH; uH] (Obj 3%nat) 0 h = Raised h struct_error)
    by reflexivity.
  destruct (failure_is_atomic [Obj 0%nat; Sized 3] [uI; uH; uH] (Obj 3%nat) 0 h
              (h ++ [partial]) h TypeError struct_error) as [Hbuild _].
  split; [exact Hb|]. split; [exact Hu|].
  exact (proj2 (Hbuild Hb)).
Defined.

(** C9. A call of [build_packet] that returns has added one object to the
    store, the [bytearray] it returns, and changed no other: every part
    that was a byte source still is, with the same bytes. *)
Theorem build_packet_frame_sources parts h h' r :
  build_packet parts h = Done h' r ->
  (exists bs, h' = h ++ [bytearray_obj bs] /\ r = Obj (length h))
  /\ (forall l b, h !! l = Some b -> h' !! l = Some b)
  /\ (forall p s, source h p s -> source h' p s).
Proof.
  intros Hrun. pose proof (build_packet_frame parts h) as Hf.
  rewrite Hrun in Hf. destruct Hf as (bs & -> & ->).
  split; [|split].
  - exists bs. split; reflexivity.
  - intros l b Hl. apply lookup_app_l_Some, Hl.
  - intros p s Hs. apply source_app, Hs.
Qed.

Lemma build_packet_frame_sources_packet :
  build_packet packet_parts packet_store
  = Done (packet_store ++ [bytearray_obj (ascii_bytes "HEADDATATAIL")]) (Obj 3%nat)
  /\ Forall2 (source (packet_store ++ [bytearray_obj (ascii_bytes "HEADDATATAIL")]))
       packet_parts [ascii_bytes "HEAD"; ascii_bytes "DATA"; ascii_bytes "TAIL"].
Proof.
  assert (Hrun : build_packet packet_parts packet_store
                 = Done (packet_store ++ [bytearray_obj (ascii_bytes "HEADDATATAIL")])
                     (Obj 3%nat)) by reflexivity.
  split; [exact Hrun|].
  eapply Forall2_impl; [exact packet_sources|].
  exact (proj2 (proj2 (build_packet_frame_sources _ _ _ _ Hrun))).
Defined.

(** ** Loop unrolling: the two loops *)

Example range_unrolled : range 0 (10 - 3) 4 = [0; 4] /\ range (10 - 10 mod 4) 10 1 = [8; 9].
Proof. split; reflexivity. Qed.

Example normal_loop_aliased :
  normal_loop Z.add 0%nat 1%nat 0%nat [[1; 2; 3; 4; 5]; [10; 20; 30; 40; 50; 60]]
  = Ok [[11; 22; 33; 44; 55]; [10; 20; 30; 40; 50; 60]] tt.
Proof. reflexivity. Qed.

Example unrolled_loop_short :
  unrolled_loop Z.add 0%nat 1%nat 2%nat [[1; 2; 3; 4; 5; 6]; [10; 20; 30; 40; 50]; [0; 0; 0; 0; 0; 0; 0]]
  = Err [[1; 2; 3; 4; 5; 6]; [10; 20; 30; 40; 50]; [11; 22; 33; 44; 55; 0; 0]] IndexError.
Proof. reflexivity. Qed.

Section ElementwiseFacts.
Context {A : Type} (add : A -> A -> A).
Implicit Types (st : list (list A)) (xs ys os : list A).

Lemma then_Ok {T U} (m : R T) (k : T -> R U) st st' v :
  m st = Ok st' v -> then_ m k st = k v st'.
Proof. unfold then_. intros ->. reflexivity. Qed.

Lemma then_Err {T U} (m : R T) (k : T -> R U) st st' e :
  m st = Err st' e -> then_ m k st = Err st' e.
Proof. unfold then_. intros ->. reflexivity. Qed.

Lemma then_Lost {T U} (m : R T) (k : T -> R U) st :
  m st = Lost -> then_ m k st = Lost.
Proof. unfold then_. intros ->. reflexivity. Qed.

Lemma then_cong {T U} (m1 m2 : R T) (k : T -> R U) st :
  m1 st = m2 st -> then_ m1 k st = then_ m2 k st.
Proof. unfold then_. intros ->. reflexivity. Qed.

Lemma for_in_app l1 l2 (body : Z -> R unit) st :
  for_in (l1 ++ l2) body st
  = then_ (for_in l1 body) (fun _ => for_in l2 body) st.
Proof.
  revert st. induction l1 as [|i l1 IH]; intros st; [reflexivity|].
  cbn [app for_in]. unfold then_ at 1 2 3.
  destruct (body i st) as [st1 []| |]; [|reflexivity|reflexivity].
  rewrite IH. reflexivity.
Qed.

Lemma arr_len_Some st a l :
  st !! a = Some l -> arr_len a st = Ok st (Z.of_nat (length l)).
Proof. unfold arr_len. intros ->. reflexivity. Qed.

Lemma arr_get_nat st a l (i : nat) :
  st !! a = Some l ->
  arr_get a (Z.of_nat i) st
  = match l !! i with Some v => Ok st v | None => Err st IndexError end.
Proof.
  intros Ha. unfold arr_get, wrap_index. rewrite Ha.
  destruct (Z.ltb_spec (Z.of_nat i) 0) as [?|_]; [lia|].
  destruct (Z.ltb_spec (Z.of_nat i) 0) as [?|_]; [lia|].
  rewrite Nat2Z.id. reflexivity.
Qed.

Lemma arr_set_nat st a l (i : nat) v :
  st !! a = Some l ->
  arr_set a (Z.of_nat i) v st
  = if decide (i < length l)%nat then Ok (<[a := <[i := v]> l]> st) tt
    else Err st IndexError.
Proof.
  intros Ha. unfold arr_set, wrap_index. rewrite Ha.
  destruct (Z.ltb_spec (Z.of_nat i) 0) as [?|_]; [lia|].
  destruct (Z.ltb_spec (Z.of_nat i) 0) as [?|_]; [lia|].
  cbn [orb].
  destruct (Z.leb_spec (Z.of_nat (length l)) (Z.of_nat i));
    destruct (decide (i < length l)%nat); try lia; [reflexivity|].
  rewrite Nat2Z.id. reflexivity.
Qed.

(** A sum stored changes no length, so [len] answers the same after it. *)
Lemma add_at_len x y out i st st' a n :
  add_at add x y out i st = Ok st' tt ->
  arr_len a st = Ok st n -> arr_len a st' = Ok st' n.
Proof.
  unfold add_at, then_.
  destruct (arr_get x i st) as [st1 vx| |] eqn:Hx; try discriminate.
  destruct (arr_get y i st1) as [st2 vy| |] eqn:Hy; try discriminate.
  assert (st1 = st) as ->.
  { unfold arr_get in Hx. repeat case_match; congruence. }
  assert (st2 = st) as ->.
  { unfold arr_get in Hy. repeat case_match; congruence. }
  unfold arr_set, arr_len.
  destruct (st !! out) as [l|] eqn:Hout; [|discriminate].
  case_match; [discriminate|]. intros Hst'. inversion Hst'; subst. clear Hst'.
  destruct (st !! a) as [la|] eqn:Ha; [|discriminate].
  intros Hn. inversion Hn; subst.
  destruct (decide (a = out)) as [->|Hne].
  - rewrite list_lookup_insert_eq by (eapply lookup_lt_Some, Hout).
    rewrite length_insert. congruence.
  - rewrite list_lookup_insert_ne by congruence. rewrite Ha. reflexivity.
Qed.

Lemma for_in_len x y out a n indices : forall st st',
  for_in indices (add_at add x y out) st = Ok st' tt ->
  arr_len a st = Ok st n -> arr_len a st' = Ok st' n.
Proof.
  induction indices as [|i indices IH]; intros st st'; cbn [for_in].
  - unfold unit_. intros H. inversion H; subst. auto.
  - unfold then_. destruct (add_at add x y out i st) as [st1 []| |] eqn:Hi;
      try discriminate.
    intros Hrest Hn. eapply IH; [exact Hrest|].
    eapply add_at_len; eassumption.
Qed.
End ElementwiseFacts.

(** The ranges of the two loops, as lists of consecutive indices. *)
Lemma range_from (a k : nat) :
  range (Z.of_nat a) (Z.of_nat (a + k)) 1 = Z.of_nat <$> seq a k.
Proof.
  unfold range. cbn [Z.ltb Z.compare].
  replace (Z.of_nat (a + k) - Z.of_nat a + 1 - 1) with (Z.of_nat k) by lia.
  rewrite Z.div_1_r, Nat2Z.id.
  replace (seq a k) with (seq (a + 0) k) by (f_equal; lia).
  rewrite <- (fmap_add_seq a 0 k), <- list_fmap_compose.
  apply list_fmap_ext. intros i j _. cbn. lia.
Qed.

Lemma range_blocks (n : nat) :
  range 0 (Z.of_nat n - 3) 4 = (fun k : nat => 4 * Z.of_nat k) <$> seq 0 (n / 4).
Proof.
  unfold range. cbn [Z.ltb Z.compare].
  replace (Z.of_nat n - 3 - 0 + 4 - 1) with (Z.of_nat n) by lia.
  replace (Z.of_nat n / 4) with (Z.of_nat (Nat.div n 4))
    by (rewrite Nat2Z.inj_div; reflexivity).
  rewrite Nat2Z.id.
  apply list_fmap_ext. intros i j _. lia.
Qed.

Lemma range_all (n : nat) :
  range 0 (Z.of_nat n) 1
  = (Z.of_nat <$> seq 0 (4 * (n / 4))) ++ (Z.of_nat <$> seq (4 * (n / 4)) (n mod 4)).
Proof.
  rewrite <- fmap_app.
  change (seq (4 * (n / 4)) (n mod 4)) with (seq (0 + 4 * (n / 4)) (n mod 4)).
  rewrite <- seq_app, <- Nat.div_mod_eq. exact (range_from 0 n).
Qed.

Lemma range_rest (n : nat) :
  range (Z.of_nat n - Z.of_nat n mod 4) (Z.of_nat n) 1
  = Z.of_nat <$> seq (4 * (n / 4)) (n mod 4).
Proof.
  rewrite <- range_from, <- Nat.div_mod_eq. f_equal.
  pose proof (Nat.div_mod_eq n 4) as Hn.
  replace (Z.of_nat n mod 4) with (Z.of_nat (n mod 4))
    by (rewrite Nat2Z.inj_mod; reflexivity).
  lia.
Qed.

Section UnrollingFacts.
Context {A : Type} (add : A -> A -> A).
Implicit Types (st : list (list A)) (xs ys os : list A).

(** Four sums in a row at [4k] are the four turns [4k .. 4k+3] of the
    plain loop. *)
Lemma for_in_blocks x y out q : forall s st,
  for_in ((fun k : nat => 4 * Z.of_nat k) <$> seq s q)
    (fun i => then_ (add_at add x y out i) (fun _ =>
              then_ (add_at add x y out (i + 1)) (fun _ =>
              then_ (add_at add x y out (i + 2)) (fun _ =>
              add_at add x y out (i + 3))))) st
  = for_in (Z.of_nat <$> seq (4 * s) (4 * q)) (add_at add x y out) st.
Proof.
  induction q as [|q IH]; intros s st.
  - replace (4 * 0)%nat with 0%nat by lia. reflexivity.
  - replace (4 * S q)%nat with (S (S (S (S (4 * q))))) by lia.
    cbn [seq fmap list_fmap for_in].
    replace (S (S (S (S (4 * s))))) with (4 * S s)%nat by lia.
    replace (Z.of_nat (S (4 * s))) with (4 * Z.of_nat s + 1) by lia.
    replace (Z.of_nat (S (S (4 * s)))) with (4 * Z.of_nat s + 2) by lia.
    replace (Z.of_nat (S (S (S (4 * s))))) with (4 * Z.of_nat s + 3) by lia.
    replace (Z.of_nat (4 * s)) with (4 * Z.of_nat s) by lia.
    unfold then_.
    destruct (add_at add x y out (4 * Z.of_nat s) st) as [st1 []| |];
      [|reflexivity|reflexivity].
    destruct (add_at add x y out (4 * Z.of_nat s + 1) st1) as [st2 []| |];
      [|reflexivity|reflexivity].
    destruct (add_at add x y out (4 * Z.of_nat s + 2) st2) as [st3 []| |];
      [|reflexivity|reflexivity].
    destruct (add_at add x y out (4 * Z.of_nat s + 3) st3) as [st4 []| |];
      [|reflexivity|reflexivity].
    apply IH.
Qed.

(** The unrolled loop does what the plain loop does, on every store: the
    same final arrays, and the same exception at the same point. *)
Lemma unrolled_loop_eq x y out st :
  unrolled_loop add x y out st = normal_loop add x y out st.
Proof.
  unfold unrolled_loop, normal_loop.
  destruct (st !! x) as [xs|] eqn:Hx.
  2:{ unfold then_, arr_len. rewrite Hx. reflexivity. }
  pose proof (arr_len_Some st x xs Hx) as Hlen.
  rewrite !(then_Ok _ _ _ _ _ Hlen).
  rewrite range_blocks, range_all, for_in_app.
  rewrite (then_cong _ _ _ _ (for_in_blocks x y out (length xs / 4) 0%nat st)).
  replace (4 * 0)%nat with 0%nat by lia.
  destruct (for_in (Z.of_nat <$> seq 0 (4 * (length xs / 4))) (add_at add x y out) st)
    as [st1 []| |] eqn:Hfirst.
  - rewrite !(then_Ok _ _ _ _ _ Hfirst).
    pose proof (for_in_len add x y out x _ _ _ _ Hfirst Hlen) as Hlen1.
    rewrite !(then_Ok _ _ _ _ _ Hlen1), range_rest. reflexivity.
  - rewrite !(then_Err _ _ _ _ _ Hfirst). reflexivity.
  - rewrite !(then_Lost _ _ _ Hfirst). reflexivity.
Qed.
End UnrollingFacts.

Section NormalLoop.
Context {A : Type} (add : A -> A -> A).
Variables (st : list (list A)) (x y out : loc) (xs ys os : list A).
Hypothesis Hx : st !! x = Some xs.
Hypothesis Hy : st !! y = Some ys.
Hypothesis Ho : st !! out = Some os.

(** The store once the first [i] sums are in [out]. *)
Local Abbreviation state i := (<[out := summed add i xs ys os]> st).

Lemma length_summed (i : nat) :
  (i <= length xs)%nat -> (i <= length ys)%nat -> (i <= length os)%nat ->
  length (summed add i xs ys os) = length os.
Proof.
  intros. unfold summed.
  rewrite length_app, length_take, length_zip_with, length_drop. lia.
Qed.

Lemma summed_lookup (i : nat) :
  (i <= length xs)%nat -> (i <= length ys)%nat ->
  summed add i xs ys os !! i = os !! i.
Proof.
  intros. unfold summed.
  assert (Hlen : length (take i (zip_with add xs ys)) = i)
    by (rewrite length_take, length_zip_with; lia).
  rewrite lookup_app_r by lia. rewrite Hlen, Nat.sub_diag, lookup_drop.
  f_equal. lia.
Qed.

Lemma summed_0 : state 0%nat = st.
Proof. unfold summed. cbn [take drop app]. apply list_insert_id, Ho. Qed.

(** Each array is in [state i] as long as at the start and holds at [i]
    what it held at the start, also when it is [out] itself. *)
Lemma state_lookup a l (i : nat) :
  st !! a = Some l ->
  (i <= length xs)%nat -> (i <= length ys)%nat -> (i <= length os)%nat ->
  exists c, state i !! a = Some c /\ length c = length l /\ c !! i = l !! i.
Proof.
  intros Ha Hix Hiy Hio. destruct (decide (a = out)) as [->|Hne].
  - assert (l = os) as -> by congruence.
    exists (summed add i xs ys os). split; [|split].
    + apply list_lookup_insert_eq. eapply lookup_lt_Some, Ho.
    + apply length_summed; assumption.
    + apply summed_lookup; assumption.
  - exists l. split; [|split; reflexivity].
    rewrite list_lookup_insert_ne by congruence. exact Ha.
Qed.

Lemma add_at_state (i : nat) :
  (i < length xs)%nat -> (i <= length ys)%nat -> (i <= length os)%nat ->
  add_at add x y out (Z.of_nat i) (state i)
  = if decide (i < length ys /\ i < length os)%nat
    then Ok (state (S i)) tt else Err (state i) IndexError.
Proof.
  intros Hix Hiy Hio.
  destruct (state_lookup x xs i Hx) as (cx & Hcx & Hlx & Hvx); try lia.
  destruct (state_lookup y ys i Hy) as (cy & Hcy & Hly & Hvy); try lia.
  destruct (lookup_lt_is_Some_2 xs i Hix) as [vx Hxi].
  unfold add_at.
  rewrite (then_Ok _ _ _ _ vx)
    by (rewrite (arr_get_nat _ _ _ _ Hcx), Hvx, Hxi; reflexivity).
  destruct (ys !! i) as [vy|] eqn:Hyi.
  - pose proof (lookup_lt_Some _ _ _ Hyi) as Hlt.
    rewrite (then_Ok _ _ _ _ vy)
      by (rewrite (arr_get_nat _ _ _ _ Hcy), Hvy; reflexivity).
    assert (Hout : state i !! out = Some (summed add i xs ys os))
      by (apply list_lookup_insert_eq; eapply lookup_lt_Some, Ho).
    rewrite (arr_set_nat _ _ _ _ _ Hout), length_summed by lia.
    destruct (decide (i < length os)%nat) as [Hlo|Hlo];
      destruct (decide (i < length ys /\ i < length os)%nat) as [Hd|Hd];
      try lia; [|reflexivity].
    rewrite list_insert_insert_eq. do 2 f_equal.
    destruct (lookup_lt_is_Some_2 os i Hlo) as [vo Hoi].
    unfold summed.
    assert (Hlen : length (take i (zip_with add xs ys)) = i)
      by (rewrite length_take, length_zip_with; lia).
    rewrite insert_app_r_alt by lia. rewrite Hlen, Nat.sub_diag.
    rewrite (drop_S _ _ _ Hoi). cbn [insert list_insert].
    rewrite (take_S_r _ _ (add vx vy)), <- app_assoc; [reflexivity|].
    apply lookup_zip_with_Some. eauto.
  - pose proof (lookup_ge_None_1 _ _ Hyi) as Hge.
    rewrite (then_Err _ _ _ (state i) IndexError)
      by (rewrite (arr_get_nat _ _ _ _ Hcy), Hvy; reflexivity).
    destruct (decide (i < length ys /\ i < length os)%nat); [lia|reflexivity].
Qed.

(** The turns [i .. i+k-1] of the loop: all are done when [y] and [out]
    reach that far; if not, the loop stops at the first index that one of
    them lacks, with the sums before it stored. *)
Lemma for_in_state (k : nat) : forall i : nat,
  (i <= Nat.min (length ys) (length os))%nat ->
  (i + k <= length xs)%nat ->
  for_in (Z.of_nat <$> seq i k) (add_at add x y out) (state i)
  = if decide (i + k <= Nat.min (length ys) (length os))%nat
    then Ok (state (i + k)%nat) tt
    else Err (state (Nat.min (length ys) (length os))) IndexError.
Proof.
  induction k as [|k IH]; intros i Him Hik.
  - cbn [seq fmap list_fmap for_in]. rewrite Nat.add_0_r.
    destruct (decide (i <= Nat.min (length ys) (length os))%nat); [reflexivity|lia].
  - cbn [seq fmap list_fmap for_in].
    rewrite (then_cong _ (fun s => add_at add x y out (Z.of_nat i) s) _ _ eq_refl).
    unfold then_. rewrite add_at_state by lia.
    destruct (decide (i < length ys /\ i < length os)%nat) as [Hd|Hd].
    + rewrite IH by lia. replace (S i + k)%nat with (i + S k)%nat by lia.
      reflexivity.
    + destruct (decide (i + S k <= Nat.min (length ys) (length os))%nat); [lia|].
      replace (Nat.min (length ys) (length os)) with i by lia. reflexivity.
Qed.

Lemma normal_loop_state :
  normal_loop add x y out st
  = if decide (length xs <= Nat.min (length ys) (length os))%nat
    then Ok (state (length xs)) tt
    else Err (state (Nat.min (length ys) (length os))) IndexError.
Proof.
  unfold normal_loop. rewrite (then_Ok _ _ _ _ _ (arr_len_Some _ _ _ Hx)).
  change (range 0 (Z.of_nat (length xs)) 1)
    with (range (Z.of_nat 0) (Z.of_nat (0 + length xs)) 1).
  rewrite (range_from 0 (length xs)).
  rewrite <- summed_0 at 1. apply (for_in_state (length xs) 0%nat); lia.
Qed.
End NormalLoop.

(** ** Loop unrolling: what the loops compute *)

(** X1. When [y] and [out] are at least as long as [x], both loops end
    normally and leave in [out] the sums [x[i] + y[i]] of the elements the
    arrays held at the call, followed by what [out] held beyond the length
    of [x]; no other array changes.  This also holds when [out] is the
    array [x] or the array [y] itself. *)
Theorem loops_sum {A : Type} (add : A -> A -> A) st x y out xs ys os :
  st !! x = Some xs -> st !! y = Some ys -> st !! out = Some os ->
  (length xs <= length ys)%nat -> (length xs <= length os)%nat ->
  normal_loop add x y out st
  = Ok (<[out := zip_with add xs ys ++ drop (length xs) os]> st) tt
  /\ unrolled_loop add x y out st
     = Ok (<[out := zip_with add xs ys ++ drop (length xs) os]> st) tt.
Proof.
  intros Hx Hy Ho Hly Hlo.
  assert (Hn : normal_loop add x y out st
               = Ok (<[out := zip_with add xs ys ++ drop (length xs) os]> st) tt).
  { rewrite (normal_loop_state add st x y out xs ys os Hx Hy Ho).
    destruct (decide (length xs <= Nat.min (length ys) (length os))%nat); [|lia].
    unfold summed. rewrite take_ge by (rewrite length_zip_with; lia). reflexivity. }
  split; [exact Hn|]. rewrite unrolled_loop_eq. exact Hn.
Qed.

(** Five sums accumulated in place: [out] is [x]. *)
Lemma loops_sum_in_place :
  let st := [[1; 2; 3; 4; 5]; [10; 20; 30; 40; 50; 60]] in
  normal_loop Z.add 0%nat 1%nat 0%nat st
  = Ok [[11; 22; 33; 44; 55]; [10; 20; 30; 40; 50; 60]] tt
  /\ unrolled_loop Z.add 0%nat 1%nat 0%nat st
     = Ok [[11; 22; 33; 44; 55]; [10; 20; 30; 40; 50; 60]] tt.
Proof.
  intros st.
  exact (loops_sum Z.add st 0%nat 1%nat 0%nat [1; 2; 3; 4; 5] [10; 20; 30; 40; 50; 60]
           [1; 2; 3; 4; 5] eq_refl eq_refl eq_refl
           ltac:(cbn; lia) ltac:(cbn; lia)).
Defined.

(** X2. When [y] or [out] is shorter than [x], both loops raise
    [IndexError] at the first index [m] that one of them lacks; the sums of
    the indices before [m] are already in [out] then. *)
Theorem loops_index_error {A : Type} (add : A -> A -> A) st x y out xs ys os :
  st !! x = Some xs -> st !! y = Some ys -> st !! out = Some os ->
  (Nat.min (length ys) (length os) < length xs)%nat ->
  let m := Nat.min (length ys) (length os) in
  normal_loop add x y out st
  = Err (<[out := take m (zip_with add xs ys) ++ drop m os]> st) IndexError
  /\ unrolled_loop add x y out st
     = Err (<[out := take m (zip_with add xs ys) ++ drop m os]> st) IndexError.
Proof.
  intros Hx Hy Ho Hshort m.
  assert (Hn : normal_loop add x y out st
               = Err (<[out := take m (zip_with add xs ys) ++ drop m os]> st)
                   IndexError).
  { rewrite (normal_loop_state add st x y out xs ys os Hx Hy Ho).
    destruct (decide (length xs <= Nat.min (length ys) (length os))%nat); [lia|].
    reflexivity. }
  split; [exact Hn|]. rewrite unrolled_loop_eq. exact Hn.
Qed.

(** A [y] of five elements under an [x] of six: five sums, then the error. *)
Lemma loops_index_error_short :
  let st := [[1; 2; 3; 4; 5; 6]; [10; 20; 30; 40; 50]; [0; 0; 0; 0; 0; 0; 0]] in
  let st' := [[1; 2; 3; 4; 5; 6]; [10; 20; 30; 40; 50]; [11; 22; 33; 44; 55; 0; 0]] in
  normal_loop Z.add 0%nat 1%nat 2%nat st = Err st' IndexError
  /\ unrolled_loop Z.add 0%nat 1%nat 2%nat st = Err st' IndexError.
Proof.
  intros st st'.
  exact (loops_index_error Z.add st 0%nat 1%nat 2%nat [1; 2; 3; 4; 5; 6]
           [10; 20; 30; 40; 50] [0; 0; 0; 0; 0; 0; 0] eq_refl eq_refl eq_refl
           ltac:(cbn; lia)).
Defined.

(** X3. [unrolled_loop] and [normal_loop] cannot be told apart: on every
    store and for every choice of the three arrays they end in the same
    way, with the same arrays, and when one raises the other raises the
    same exception after the same stores. *)
Theorem unrolled_loop_same {A : Type} (add : A -> A -> A) x y out st :
  unrolled_loop add x y out st = normal_loop add x y out st.
Proof. apply unrolled_loop_eq. Qed.

(** ** The buffer functions together *)

Lemma exports_last h b : exports (h ++ [b]) (Obj (length h)) (length h) b.
Proof. split; [reflexivity|]. apply list_lookup_middle. reflexivity. Qed.

Lemma source_last h bs : source (h ++ [bytearray_obj bs]) (Obj (length h)) bs.
Proof. exists (length h), (bytearray_obj bs). split; [apply exports_last|reflexivity]. Qed.

(** X4. The packet is an object of its own: reversing it in place gives
    the reversed concatenation of the parts and leaves every part with the
    bytes it had. *)
Theorem reverse_packet fuel h parts srcs :
  Forall2 (source h) parts srcs ->
  (length (concat srcs) <= 2 * fuel + 1)%nat ->
  let h' := h ++ [bytearray_obj (reverse (concat srcs))] in
  (let* buf := build_packet parts in
   let* _ := reverse_inplace fuel buf in
   ret buf) h = Done h' (Obj (length h))
  /\ Forall2 (source h') parts srcs.
Proof.
  intros Hsrc Hfuel h'. split.
  - run (build_packet_sources _ _ _ Hsrc).
    run (reverse_inplace_run fuel _ _ _ _ (exports_last h _) Hfuel).
    rewrite insert_last. reflexivity.
  - eapply Forall2_impl; [exact Hsrc|]. intros p s. apply source_app.
Qed.

Lemma reverse_packet_tail :
  Forall2 (source packet_store) packet_parts
    [ascii_bytes "HEAD"; ascii_bytes "DATA"; ascii_bytes "TAIL"]
  /\ (let* buf := build_packet packet_parts in
      let* _ := reverse_inplace 6 buf in
      ret buf) packet_store
     = Done (packet_store ++ [bytearray_obj (ascii_bytes "LIATATADDAEH")]) (Obj 3%nat).
Proof.
  split; [exact packet_sources|].
  exact (proj1 (reverse_packet 6 _ _ _ packet_sources ltac:(vm_compute; lia))).
Defined.

Lemma unpack_fields_concat fmt srcs :
  Forall2 (fun c s => length s = code_size c) fmt srcs ->
  unpack_fields fmt (concat srcs) = big_endian <$> srcs
  /\ calcsize fmt = length (concat srcs).
Proof.
  induction 1 as [|c s fmt srcs Hc _ [IHv IHn]]; [split; reflexivity|].
  cbn [unpack_fields concat fmap list_fmap]. split.
  - rewrite take_app_length', drop_app_length' by (symmetry; exact Hc).
    rewrite bu_uint_big_endian, IHv. reflexivity.
  - rewrite calcsize_cons, length_app, IHn, Hc. reflexivity.
Qed.

(** X5. Fields that [build_packet] lays side by side are read back by
    [struct.unpack_from]: when each part has the width of its field, the
    packet unpacks at offset 0 to the big-endian values of the parts, in
    order. *)
Theorem unpack_packet h parts srcs fmt :
  Forall2 (source h) parts srcs ->
  Forall2 (fun c s => length s = code_size c) fmt srcs ->
  (let* buf := build_packet parts in unpack_from fmt buf 0) h
  = Done (h ++ [bytearray_obj (concat srcs)]) (big_endian <$> srcs).
Proof.
  intros Hsrc Hfmt. destruct (unpack_fields_concat _ _ Hfmt) as [Hv Hn].
  run (build_packet_sources _ _ _ Hsrc).
  change 0 with (Z.of_nat 0).
  rewrite (unpack_from_nat _ _ _ _ fmt 0%nat (exports_last h _)).
  cbn [buf_bytes bytearray_obj]. rewrite drop_0.
  destruct (decide (0 + calcsize fmt <= length (concat srcs))%nat); [|lia].
  rewrite Hv. reflexivity.
Qed.

(** A header put together from a magic number and two version numbers. *)
Lemma unpack_packet_header :
  let h := [bytes_obj (take 4 header_123); bytes_obj [Byte.x00; Byte.x02];
            bytes_obj [Byte.x05; Byte.xc0]] in
  (let* buf := build_packet [Obj 0%nat; Obj 1%nat; Obj 2%nat] in
   unpack_from [uI; uH; uH] buf 0) h
  = Done (h ++ [bytearray_obj [Byte.x00; Byte.x00; Byte.x00; Byte.x01;
                               Byte.x00; Byte.x02; Byte.x05; Byte.xc0]])
      [1; 2; 1472].
Proof.
  intros h.
  refine (unpack_packet h [Obj 0%nat; Obj 1%nat; Obj 2%nat]
            [take 4 header_123; [Byte.x00; Byte.x02]; [Byte.x05; Byte.xc0]]
            [uI; uH; uH] _ _).
  - repeat constructor; eexists _, _; (split; [split|]); reflexivity.
  - repeat constructor.
Defined.

(** X6. A packet is a byte source like any other: two packets assembled
    into a third give the bytes that assembling all the parts at once
    gives. *)
Theorem build_packet_nested h parts1 parts2 srcs1 srcs2 :
  Forall2 (source h) parts1 srcs1 ->
  Forall2 (source h) parts2 srcs2 ->
  (let* a := build_packet parts1 in
   let* b := build_packet parts2 in
   build_packet [a; b]) h
  = Done (h ++ [bytearray_obj (concat srcs1); bytearray_obj (concat srcs2);
                bytearray_obj (concat (srcs1 ++ srcs2))])
      (Obj (length h + 2))
  /\ build_packet (parts1 ++ parts2) h
     = Done (h ++ [bytearray_obj (concat (srcs1 ++ srcs2))]) (Obj (length h)).
Proof.
  intros H1 H2. split.
  - run (build_packet_sources _ _ _ H1).
    assert (H2' : Forall2 (source (h ++ [bytearray_obj (concat srcs1)])) parts2 srcs2).
    { eapply Forall2_impl; [exact H2|]. intros p s. apply source_app. }
    run (build_packet_sources _ _ _ H2').
    rewrite (build_packet_sources _ _ [concat srcs1; concat srcs2]).
    + f_equal.
      * rewrite <- !app_assoc, concat_app. cbn [app concat].
        rewrite app_nil_r. reflexivity.
      * f_equal. rewrite !length_app. cbn [length]. lia.
    + constructor; [|constructor; [|constructor]].
      * apply source_app, source_last.
      * apply source_last.
  - apply build_packet_sources, Forall2_app; assumption.
Qed.

Lemma build_packet_nested_packet :
  (let* a := build_packet [Obj 0%nat] in
   let* b := build_packet [Obj 1%nat; Obj 2%nat] in
   build_packet [a; b]) packet_store
  = Done (packet_store ++ [bytearray_obj (ascii_bytes "HEAD");
                           bytearray_obj (ascii_bytes "DATATAIL");
                           bytearray_obj (ascii_bytes "HEADDATATAIL")]) (Obj 5%nat)
  /\ build_packet packet_parts packet_store
     = Done (packet_store ++ [bytearray_obj (ascii_bytes "HEADDATATAIL")]) (Obj 3%nat).
Proof.
  refine (build_packet_nested packet_store [Obj 0%nat] [Obj 1%nat; Obj 2%nat]
            [ascii_bytes "HEAD"] [ascii_bytes "DATA"; ascii_bytes "TAIL"] _ _);
    repeat constructor; eexists _, _; (split; [split|]); reflexivity.
Defined.

(** ** More on the header parse *)

(** X7. The cell of case 2 on any header: with eight bytes or more, the
    three names are bound to the big-endian values of bytes 0 to 3, 4 to 5
    and 6 to 7, whatever follows them; with fewer, [struct.error] is raised.
    Either way the new [bytearray] is the only change of the store. *)
Theorem parse_header_spec random h :
  parse_header random h
  = if decide (8 <= length random)%nat
    then Done (h ++ [bytearray_obj random])
           (big_endian (take 4 random),
            big_endian (take 2 (drop 4 random)),
            big_endian (take 2 (drop 6 random)))
    else Raised (h ++ [bytearray_obj random]) struct_error.
Proof.
  unfold parse_header, bytearray_of.
  rewrite (bind_Done _ _ h (h ++ [bytearray_obj random]) (Obj (length h)))
    by reflexivity.
  run (memoryview_last _ _).
  assert (Hex : exports (h ++ [bytearray_obj random])
                  (View (MemView (length h) false)) (length h) (bytearray_obj random)).
  { split; [reflexivity|]. apply list_lookup_middle. reflexivity. }
  pose proof (unpack_from_nat _ _ _ _ [uI; uH; uH] 0%nat Hex) as Hrun.
  change (Z.of_nat 0) with 0 in Hrun. cbn [buf_bytes bytearray_obj] in Hrun.
  change (0 + calcsize [uI; uH; uH])%nat with 8%nat in Hrun.
  destruct (decide (8 <= length random)%nat).
  - run Hrun. cbn [unpack_fields code_size].
    rewrite drop_0, !drop_drop, !bu_uint_big_endian. reflexivity.
  - apply bind_Raised, Hrun.
Qed.

Lemma big_endian_range bs : 0 <= big_endian bs < 256 ^ Z.of_nat (length bs).
Proof.
  induction bs as [|b bs IH]; cbn [big_endian length]; [lia|].
  pose proof (byte_value_range b).
  rewrite Nat2Z.inj_succ, Z.pow_succ_r by lia. nia.
Qed.

Lemma unpack_fields_range fmt : forall bs,
  Forall2 (fun c v => 0 <= v < 256 ^ Z.of_nat (code_size c)) fmt (unpack_fields fmt bs).
Proof.
  induction fmt as [|c fmt IH]; intros bs; cbn [unpack_fields]; constructor.
  - rewrite bu_uint_big_endian.
    pose proof (big_endian_range (take (code_size c) bs)) as Hr.
    assert (256 ^ Z.of_nat (length (take (code_size c) bs))
            <= 256 ^ Z.of_nat (code_size c)).
    { apply Z.pow_le_mono_r; [lia|]. rewrite length_take. lia. }
    lia.
  - apply IH.
Qed.

(** X8. Every value that [struct.unpack_from] returns fits its field: it
    is at least 0 and less than [256 ^ width] (so the magic number of the
    header is below [2^32] and the two version numbers below [2^16]). *)
Theorem unpack_from_range fmt buffer offset h h' vals :
  unpack_from fmt buffer offset h = Done h' vals ->
  Forall2 (fun c v => 0 <= v < 256 ^ Z.of_nat (code_size c)) fmt vals.
Proof.
  unfold unpack_from, bind, raise, ret.
  destruct (getbuffer buffer h) as [h1 l| | |]; try discriminate.
  destruct (deref l h1) as [h2 b| | |]; try discriminate.
  repeat case_match; try discriminate.
  all: intros Hdone; inversion Hdone; subst; apply unpack_fields_range.
Qed.

Lemma unpack_from_range_header :
  unpack_from [uI; uH; uH] (Obj 0%nat) 0 [bytes_obj header_123]
  = Done [bytes_obj header_123] [1; 2; 3]
  /\ Forall2 (fun c v => 0 <= v < 256 ^ Z.of_nat (code_size c)) [uI; uH; uH] [1; 2; 3].
Proof.
  assert (Hrun : unpack_from [uI; uH; uH] (Obj 0%nat) 0 [bytes_obj header_123]
                 = Done [bytes_obj header_123] [1; 2; 3]) by reflexivity.
  split; [exact Hrun|]. exact (unpack_from_range _ _ _ _ _ _ Hrun).
Defined.

Lemma byte_value_inj a b : byte_value a = byte_value b -> a = b.
Proof.
  unfold byte_value. intros H. apply N2Z.inj in H.
  pose proof (Byte.of_to_N a) as Ha. rewrite H, Byte.of_to_N in Ha. congruence.
Qed.

Lemma big_endian_inj : forall as_ bs : list byte,
  length as_ = length bs -> big_endian as_ = big_endian bs -> as_ = bs.
Proof.
  induction as_ as [|a as_ IH]; intros [|b bs] Hlen Heq; try discriminate;
    [reflexivity|].
  cbn [big_endian length] in *. injection Hlen as Hlen. rewrite Hlen in Heq.
  pose proof (byte_value_range a). pose proof (byte_value_range b).
  pose proof (big_endian_range as_) as Ha. pose proof (big_endian_range bs) as Hb.
  rewrite Hlen in Ha.
  assert (Hp : 0 < 256 ^ Z.of_nat (length bs)) by (apply Z.pow_pos_nonneg; lia).
  assert (byte_value a = byte_value b) by nia.
  f_equal; [apply byte_value_inj; assumption|].
  apply IH; [exact Hlen|nia].
Qed.

Lemma unpack_fields_inj fmt : forall bs1 bs2,
  (calcsize fmt <= length bs1)%nat -> (calcsize fmt <= length bs2)%nat ->
  unpack_fields fmt bs1 = unpack_fields fmt bs2 ->
  take (calcsize fmt) bs1 = take (calcsize fmt) bs2.
Proof.
  induction fmt as [|c fmt IH]; intros bs1 bs2 H1 H2 Heq; [reflexivity|].
  rewrite calcsize_cons in *. cbn [unpack_fields] in Heq.
  injection Heq as Hhead Htail. rewrite !bu_uint_big_endian in Hhead.
  rewrite <- !take_take_drop. f_equal.
  - apply big_endian_inj; [|exact Hhead]. rewrite !length_take. lia.
  - apply IH; [rewrite length_drop; lia|rewrite length_drop; lia|exact Htail].
Qed.

(** X9. The values determine the bytes: two buffers that unpack, under the
    same layout, to the same values hold the same bytes over the extent of
    the layout. *)
Theorem unpack_from_injective h fmt buffer1 buffer2 l1 l2 b1 b2 (offset1 offset2 : nat) vals :
  exports h buffer1 l1 b1 -> exports h buffer2 l2 b2 ->
  unpack_from fmt buffer1 (Z.of_nat offset1) h = Done h vals ->
  unpack_from fmt buffer2 (Z.of_nat offset2) h = Done h vals ->
  take (calcsize fmt) (drop offset1 (buf_bytes b1))
  = take (calcsize fmt) (drop offset2 (buf_bytes b2)).
Proof.
  intros Hex1 Hex2.
  rewrite (unpack_from_nat _ _ _ _ _ _ Hex1), (unpack_from_nat _ _ _ _ _ _ Hex2).
  destruct (decide (offset1 + calcsize fmt <= length (buf_bytes b1))%nat);
    [|discriminate].
  destruct (decide (offset2 + calcsize fmt <= length (buf_bytes b2))%nat);
    [|discriminate].
  intros H1 H2. apply unpack_fields_inj.
  - rewrite length_drop. lia.
  - rewrite length_drop. lia.
  - congruence.
Qed.

(** The same header at the start of one buffer and inside another. *)
Lemma unpack_from_injective_header :
  let h := [bytes_obj header_123; bytes_obj (Byte.xff :: take 8 header_123)] in
  unpack_from [uI; uH; uH] (Obj 0%nat) 0 h = Done h [1; 2; 3]
  /\ unpack_from [uI; uH; uH] (Obj 1%nat) 1 h = Done h [1; 2; 3]
  /\ take 8 header_123 = take 8 (drop 1 (Byte.xff :: take 8 header_123)).
Proof.
  intros h.
  assert (H0 : unpack_from [uI; uH; uH] (Obj 0%nat) 0 h = Done h [1; 2; 3])
    by reflexivity.
  assert (H1 : unpack_from [uI; uH; uH] (Obj 1%nat) 1 h = Done h [1; 2; 3])
    by reflexivity.
  split; [exact H0|]. split; [exact H1|].
  exact (unpack_from_injective h [uI; uH; uH] (Obj 0%nat) (Obj 1%nat) 0%nat 1%nat
           _ _ 0%nat 1%nat [1; 2; 3]
           ltac:(split; reflexivity) ltac:(split; reflexivity) H0 H1).
Defined.

(** ** When [reverse_inplace] raises *)

Lemma swap_read_only h l bs (left right : nat) :
  h !! l = Some (Buffer true bs) ->
  (left < length bs)%nat -> (right < length bs)%nat ->
  swap (MemView l false) (Z.of_nat left) (Z.of_nat right) h = Raised h TypeError.
Proof.
  intros Hl Hleft Hright. unfold swap.
  destruct (lookup_lt_is_Some_2 bs left Hleft) as [a Ha].
  destruct (lookup_lt_is_Some_2 bs right Hright) as [b Hb].
  run (getitem_nat h l _ right b Hl Hb).
  run (getitem_nat h l _ left a Hl Ha).
  apply bind_Raised. unfold setitem. cbn [mv_released mv_obj].
  run (deref_Some _ _ _ Hl). reflexivity.
Qed.

Lemma reverse_inplace_ro fuel h data l b :
  exports h data l b ->
  buf_readonly b = true ->
  (2 <= length (buf_bytes b))%nat ->
  reverse_inplace (S fuel) data h = Raised h TypeError.
Proof.
  intros Hex Hro Hlen. pose proof (exports_lookup _ _ _ _ Hex) as Hl.
  destruct b as [ro bs]. cbn [buf_readonly buf_bytes] in *. subst ro.
  unfold reverse_inplace.
  run (memoryview_exports _ _ _ _ Hex).
  run (len_mv_live _ _ _ Hl). cbn [buf_bytes].
  apply bind_Raised. rewrite reverse_loop_turn by lia.
  apply bind_Raised.
  replace (Z.of_nat (length bs) - 1) with (Z.of_nat (length bs - 1)) by lia.
  apply (swap_read_only h l bs 0 (length bs - 1) Hl); lia.
Qed.

(** On a writable buffer the loop with too little fuel runs out of it: it
    does not raise. *)
Lemma reverse_loop_starved fuel : forall mid pre post h l,
  h !! l = Some (Buffer false (pre ++ mid ++ post)) ->
  (2 * fuel + 1 < length mid)%nat ->
  reverse_loop fuel (MemView l false)
    (Z.of_nat (length pre)) (Z.of_nat (length pre) + Z.of_nat (length mid) - 1) h
  = OutOfFuel.
Proof.
  induction fuel as [|fuel IH]; intros mid pre post h l Hl Hfuel.
  - cbn [reverse_loop].
    destruct (Z.ltb_spec (Z.of_nat (length pre))
                (Z.of_nat (length pre) + Z.of_nat (length mid) - 1)); [reflexivity|lia].
  - destruct mid as [|x mid]; [cbn in Hfuel; lia|].
    destruct mid as [|y mid _] using rev_ind; [cbn in Hfuel; lia|].
    cbn [length] in *. rewrite length_app in *. cbn [length] in *.
    rewrite reverse_loop_turn by lia.
    replace (Z.of_nat (length pre) + Z.of_nat (S (length mid + 1)) - 1)
      with (Z.of_nat (length pre + S (length mid))) by lia.
    rewrite (bind_Done _ _ h _ tt (swap_spec h l pre x mid y post
      ltac:(rewrite Hl; cbn; rewrite <- !app_assoc; reflexivity))).
    replace (Z.of_nat (length pre) + 1) with (Z.of_nat (length (pre ++ [y])))
      by (rewrite length_app; cbn; lia).
    replace (Z.of_nat (length pre + S (length mid)) - 1)
      with (Z.of_nat (length (pre ++ [y])) + Z.of_nat (length mid) - 1)
      by (rewrite length_app; cbn; lia).
    apply (IH mid (pre ++ [y]) (x :: post)).
    + rewrite list_lookup_insert_eq by (eapply lookup_lt_Some, Hl).
      rewrite <- !app_assoc. reflexivity.
    + lia.
Qed.

Lemma reverse_inplace_starved fuel h data l bs :
  exports h data l (bytearray_obj bs) ->
  (2 * fuel + 1 < length bs)%nat ->
  reverse_inplace fuel data h = OutOfFuel.
Proof.
  intros Hex Hfuel. pose proof (exports_lookup _ _ _ _ Hex) as Hl.
  unfold reverse_inplace.
  run (memoryview_exports _ _ _ _ Hex).
  run (len_mv_live _ _ _ Hl). cbn [buf_bytes bytearray_obj].
  pose proof (reverse_loop_starved fuel bs [] [] h l) as Hloop.
  rewrite !app_nil_r in Hloop. cbn [app length] in Hloop.
  change (Z.of_nat 0) with 0 in Hloop. rewrite Z.add_0_l in Hloop.
  unfold bind. rewrite (Hloop Hl Hfuel). reflexivity.
Qed.

(** X10. On a read-only buffer of two bytes or more ([bytes], or a view of
    one) [reverse_inplace] raises [TypeError] at its first assignment, and
    the store is as it was. *)
Theorem reverse_inplace_read_only fuel h data l b :
  exports h data l b ->
  buf_readonly b = true ->
  (2 <= length (buf_bytes b))%nat ->
  reverse_inplace (S fuel) data h = Raised h TypeError.
Proof. apply reverse_inplace_ro. Qed.

Lemma reverse_inplace_read_only_ab :
  exports [bytes_obj (ascii_bytes "ab")] (View (MemView 0%nat false)) 0%nat
    (bytes_obj (ascii_bytes "ab"))
  /\ reverse_inplace 1 (View (MemView 0%nat false)) [bytes_obj (ascii_bytes "ab")]
     = Raised [bytes_obj (ascii_bytes "ab")] TypeError.
Proof.
  assert (Hex : exports [bytes_obj (ascii_bytes "ab")] (View (MemView 0%nat false))
                  0%nat (bytes_obj (ascii_bytes "ab"))) by (split; reflexivity).
  split; [exact Hex|].
  exact (reverse_inplace_read_only 0 _ _ _ _ Hex eq_refl ltac:(vm_compute; lia)).
Defined.

(** X11. Whenever [reverse_inplace] raises, it has changed nothing: the
    store is the one of the call.  The exception is [TypeError] (the
    argument exports no buffer, or a read-only one) or [ValueError] (a
    released memoryview); the loop itself never fails half-way. *)
Theorem reverse_inplace_atomic fuel data h h' e :
  reverse_inplace fuel data h = Raised h' e ->
  h' = h /\ (e = TypeError \/ e = ValueError).
Proof.
  intros Hrun.
  destruct (getbuffer data h) as [h1 l|h1 e1| |] eqn:Hg.
  - assert (h1 = h) as -> by (apply (keeps_getbuffer data h); rewrite Hg; reflexivity).
    destruct (h !! l) as [[ro bs]|] eqn:Hl.
    + assert (Hex : exports h data l (Buffer ro bs)) by (split; assumption).
      destruct ro.
      * destruct (decide (length bs <= 1)%nat) as [Hshort|Hlong].
        { rewrite (reverse_inplace_short fuel _ _ _ _ Hex Hshort) in Hrun.
          discriminate. }
        destruct fuel as [|fuel].
        { exfalso. revert Hrun. unfold reverse_inplace.
          run (memoryview_exports _ _ _ _ Hex).
          run (len_mv_live _ _ _ Hl). cbn [buf_bytes reverse_loop].
          unfold bind.
          destruct (Z.ltb_spec 0 (Z.of_nat (length bs) - 1)); [discriminate|lia]. }
        rewrite (reverse_inplace_ro fuel _ _ _ _ Hex eq_refl) in Hrun
          by (cbn; lia).
        inversion Hrun; subst. split; [reflexivity|left; reflexivity].
      * destruct (decide (length bs <= 2 * fuel + 1)%nat) as [Hfuel|Hfuel].
        { rewrite (reverse_inplace_run fuel _ _ _ _ Hex Hfuel) in Hrun.
          discriminate. }
        rewrite (reverse_inplace_starved fuel _ _ _ _ Hex) in Hrun by lia.
        discriminate.
    + exfalso. revert Hrun. unfold reverse_inplace, memoryview, bind.
      rewrite Hg. unfold deref. rewrite Hl. discriminate.
  - assert (Hrun' : reverse_inplace fuel data h = Raised h1 e1).
    { unfold reverse_inplace, memoryview. apply bind_Raised, bind_Raised, Hg. }
    rewrite Hrun' in Hrun. inversion Hrun; subst.
    destruct data as [l0|[l0 [|]]|n]; cbn in Hg; unfold ret, raise in Hg;
      inversion Hg; subst; split; auto.
  - exfalso. destruct data as [l0|[l0 [|]]|n]; discriminate Hg.
  - exfalso. destruct data as [l0|[l0 [|]]|n]; discriminate Hg.
Qed.

Lemma reverse_inplace_atomic_released :
  reverse_inplace 5 (View (MemView 0%nat true)) [bytearray_obj alphabet]
  = Raised [bytearray_obj alphabet] ValueError
  /\ [bytearray_obj alphabet] = [bytearray_obj alphabet].
Proof.
  assert (Hrun : reverse_inplace 5 (View (MemView 0%nat true)) [bytearray_obj alphabet]
                 = Raised [bytearray_obj alphabet] ValueError) by reflexivity.
  split; [exact Hrun|].
  exact (proj1 (reverse_inplace_atomic _ _ _ _ _ Hrun)).
Defined.

(** ** When [build_packet] returns *)







